(** * graph-viewport: scene tree, scoped mutations and their invariants

    A shallow embedding of the state-management functions of
    [src/utilities.js], [src/graph-plane.js], [src/graph-edge.js],
    [src/graph-node.js] and [src/graph-viewport.js].

    Two views of the same code are used.

    - The _value_ view ([Node], [Tree]): a scene node is a record, a
      mutation is a function on records.  It is the view in which the
      geometry, the edge repair and the selection discipline are studied.
    - The _store_ view (module [Store]): JavaScript objects live in a store
      and are reached through references, object spread is a shallow copy
      and an assignment [o.f = v] updates the store.  It is the view in
      which aliasing, in-place updates and raised exceptions are studied.

    Numbers that carry geometry are real numbers; keys and pointer
    movements are integers.  The code computes the geometry in IEEE-754
    doubles: a matrix or a length that a theorem gives by a formula is the
    one of the code up to the rounding of the operations in that
    formula. *)

From Stdlib Require Import ZArith Reals Lra Lia String.
From stdpp Require Import base option list strings pretty gmap.

Set Default Proof Using "Type".
Set Warnings "-register-all".

(** ** 3x3 matrices ([mathjs]) *)

Record matrix : Type := Mat {
  m00 : R; m01 : R; m02 : R;
  m10 : R; m11 : R; m12 : R;
  m20 : R; m21 : R; m22 : R
}.

Module math.

(** [math.identity(3)] *)
Definition identity : matrix :=
  Mat 1 0 0
      0 1 0
      0 0 1.

(** [math.multiply(A, B)] on 3x3 matrices *)
Definition multiply (a b : matrix) : matrix :=
  Mat (m00 a * m00 b + m01 a * m10 b + m02 a * m20 b)
      (m00 a * m01 b + m01 a * m11 b + m02 a * m21 b)
      (m00 a * m02 b + m01 a * m12 b + m02 a * m22 b)
      (m10 a * m00 b + m11 a * m10 b + m12 a * m20 b)
      (m10 a * m01 b + m11 a * m11 b + m12 a * m21 b)
      (m10 a * m02 b + m11 a * m12 b + m12 a * m22 b)
      (m20 a * m00 b + m21 a * m10 b + m22 a * m20 b)
      (m20 a * m01 b + m21 a * m11 b + m22 a * m21 b)
      (m20 a * m02 b + m21 a * m12 b + m22 a * m22 b).

(** [math.det] *)
Definition det (a : matrix) : R :=
  m00 a * (m11 a * m22 a - m12 a * m21 a)
  - m01 a * (m10 a * m22 a - m12 a * m20 a)
  + m02 a * (m10 a * m21 a - m11 a * m20 a).

(** [math.inv]: adjugate over determinant.  [math.inv] raises on a
    singular matrix; here the function is total and every statement that
    relies on the inverse carries the hypothesis that the determinant is
    not zero. *)
Definition inv (a : matrix) : matrix :=
  let d := det a in
  Mat ((m11 a * m22 a - m12 a * m21 a) / d)
      ((m02 a * m21 a - m01 a * m22 a) / d)
      ((m01 a * m12 a - m02 a * m11 a) / d)
      ((m12 a * m20 a - m10 a * m22 a) / d)
      ((m00 a * m22 a - m02 a * m20 a) / d)
      ((m02 a * m10 a - m00 a * m12 a) / d)
      ((m10 a * m21 a - m11 a * m20 a) / d)
      ((m01 a * m20 a - m00 a * m21 a) / d)
      ((m00 a * m11 a - m01 a * m10 a) / d).

(** [math.norm] of a 2-vector: the Euclidean norm *)
Definition norm (v : R * R) : R := sqrt (fst v * fst v + snd v * snd v).

(** [math.pow(b, x)] for a positive base *)
Definition pow (b x : R) : R := Rpower b x.

(** [math.max] of a non-empty array of integers, given as head and tail *)
Definition max (x : Z) (xs : list Z) : Z := foldr Z.max x xs.

End math.

(** ** Scene nodes (value view) *)

(** The [data] bag of a node.  A flag that is absent reads as falsy in every
    test the code makes ([c.data.selected], [state.data.active]), so absent
    and [false] are one value here. *)
Record Data : Type := mkData {
  clickBox : list Z;
  title : string;
  selected : bool;
  active : bool;
  parentKey : option Z;
  linkedTo : option Z;
  to : option (R * R)
}.

(** A unist node with a [worldMatrix]: [type] is the tag string, [key] is
    [None] where the source leaves it undefined (in-edge nodes, window,
    plane). *)
Inductive Node : Type := mkNode {
  type : string;
  key : option Z;
  worldMatrix : matrix;
  data : Data;
  children : list Node
}.

Definition with_children (n : Node) (cs : list Node) : Node :=
  mkNode (type n) (key n) (worldMatrix n) (data n) cs.

Definition with_data (n : Node) (d : Data) : Node :=
  mkNode (type n) (key n) (worldMatrix n) d (children n).

Definition with_key (n : Node) (k : option Z) : Node :=
  mkNode (type n) k (worldMatrix n) (data n) (children n).

(** [{ ...node }]: a node with the same fields *)
Definition spread (n : Node) : Node :=
  mkNode (type n) (key n) (worldMatrix n) (data n) (children n).


(** ** Frame algebra ([@mvarble/frames.js]) *)

Module frames.

(** Modelled from the spec: the frame operations of [@mvarble/frames.js]
    (section 4.1), a package whose source is not part of the repository.
    A frame stores its matrix towards the canvas ([worldMatrix]); an
    operation returns a new node, tag, key and data as in the node it was
    given, and moves the descendants with it, so the placement of a child
    relative to its parent is untouched. *)
Fixpoint transformedByMatrix (t : matrix) (n : Node) : Node :=
  mkNode (type n) (key n) (math.multiply t (worldMatrix n)) (data n)
         (map (transformedByMatrix t) (children n)).


(** Modelled from the spec: [vecFrameTrans(v, from, to)] converts a
    direction between two frames by [to^-1 * from]; the translation is
    ignored. *)
Definition vecFrameTrans (v : R * R) (from to_ : matrix) : R * R :=
  let c := math.multiply (math.inv to_) from in
  (m00 c * fst v + m01 c * snd v, m10 c * fst v + m11 c * snd v)%R.

Definition translation (d : R * R) : matrix :=
  Mat 1 0 (fst d)
      0 1 (snd d)
      0 0 1.

Definition scaling (s : R * R) : matrix :=
  Mat (fst s) 0 0
      0 (snd s) 0
      0 0 1.

(** Modelled from the spec: [translatedFrame(node, delta, ref)], the node
    translated by [delta] expressed in the frame [ref]. *)
Definition translatedFrame (n : Node) (d : R * R) (ref : matrix) : Node :=
  transformedByMatrix
    (math.multiply ref (math.multiply (translation d) (math.inv ref))) n.

(** Modelled from the spec: [scaledFrame(node, factors, pivot)], the node
    scaled about the origin of the frame [pivot]. *)
Definition scaledFrame (n : Node) (s : R * R) (pivot : matrix) : Node :=
  transformedByMatrix
    (math.multiply pivot (math.multiply (scaling s) (math.inv pivot))) n.

End frames.

(** ** utilities.js *)

(** A mutation ("reducer") is a JavaScript function on nodes; [None] is a
    raised exception. *)
Definition reducer : Type := Node -> option Node.

(** [{ reducer, key }] *)
Record keyed : Type := Keyed { kreducer : reducer; kkey : option Z }.

(** [keyReducer(key)], on one element of the stream *)
Definition keyReducer (k : option Z) (r : reducer) : keyed := Keyed r k.

(** [children.findIndex(p)]: [None] is the source's [-1] *)
Definition findIndex (p : Node -> bool) (l : list Node) : option nat :=
  fst <$> list_find (fun c => p c = true) l.

(** [c.key === key] *)
Definition key_is (k : option Z) (c : Node) : bool := bool_decide (key c = k).

(** The function [lift] inside [liftReducer]: the mutation of the parent
    made from a keyed mutation of a child. *)
Definition lift (kr : keyed) : reducer := fun tree =>
  let treeCopy := spread tree in
  let cs := children treeCopy in
  match findIndex (key_is (kkey kr)) cs with
  | Some index =>
      match cs !! index with
      | Some c =>
          c' ← kreducer kr c;
          Some (with_children treeCopy (<[index := c']> cs))
      | None => Some (with_children treeCopy cs)
      end
  | None => Some (with_children treeCopy cs)
  end.

(** [liftReducer(field)], on a finite run of keyed mutations in arrival
    order *)
Definition liftReducer (emitted : list keyed) : list reducer := map lift emitted.

(** ** graph-node.js *)

(** [selectNode]: the copy carries [selected] and [active] set. *)
Definition selectNode (node : Node) : Node :=
  let nodeCopy := spread node in
  with_data nodeCopy
    (mkData (clickBox (data nodeCopy)) (title (data nodeCopy)) true true
            (parentKey (data nodeCopy)) (linkedTo (data nodeCopy))
            (to (data nodeCopy))).

(** [deselectNode]: the copy carries [selected] and [active] cleared. *)
Definition deselectNode (node : Node) : Node :=
  let nodeCopy := spread node in
  with_data nodeCopy
    (mkData (clickBox (data nodeCopy)) (title (data nodeCopy)) false false
            (parentKey (data nodeCopy)) (linkedTo (data nodeCopy))
            (to (data nodeCopy))).

(** [{ ...c, data: { ...c.data, active: false } }] *)
Definition deactivate (c : Node) : Node :=
  with_data c
    (mkData (clickBox (data c)) (title (data c)) (selected (data c)) false
            (parentKey (data c)) (linkedTo (data c)) (to (data c))).

(** [moveTop(key)] *)
Definition moveTop (k : option Z) (parent : Node) : Node :=
  match findIndex (key_is k) (children parent) with
  | Some index =>
      match children parent !! index with
      | Some c =>
          with_children (spread parent)
            (c :: take index (children parent)
               ++ drop (S index) (children parent))
      | None => parent
      end
  | None => parent
  end.

(** [L && parentCopy.children[0].key === key] and the rebuilt child list,
    shared by [makeActive] and [makeOnlySelected] *)
Definition promote (others : Node -> Node) (k : option Z) (parent : Node)
  : Node :=
  let parentCopy := moveTop k parent in
  match children parentCopy with
  | c0 :: rest =>
      if key_is k c0
      then with_children parentCopy (selectNode c0 :: map others rest)
      else parentCopy
  | [] => parentCopy
  end.

(** [makeActive(key)] *)
Definition makeActive (k : option Z) (parent : Node) : Node :=
  promote deactivate k parent.

(** [makeOnlySelected(key)] *)
Definition makeOnlySelected (k : option Z) (parent : Node) : Node :=
  promote deselectNode k parent.

(** Pointer and wheel events.  [position] is what
    [relativeMousePosition(event)] of [@mvarble/viewport.js] returns. *)
Record MouseEvent : Type := mkEvent {
  etype : string;
  shiftKey : bool;
  movementX : Z;
  movementY : Z;
  deltaY : R;
  position : R * R
}.

(** [movedNode] *)
Definition movedNode (node : Node) (dx dy : Z) : Node :=
  frames.translatedFrame node (IZR dx, IZR dy) math.identity.

(** [dragNodes({ movementX, movementY })] *)
Definition dragNodes (e : MouseEvent) (parent : Node) : Node :=
  let parentCopy := spread parent in
  with_children parentCopy
    (map (fun node =>
            if selected (data node)
            then movedNode node (movementX e) (movementY e)
            else node)
         (children parentCopy)).

(** Truthiness of a number, and [a && b] on numbers: the left operand when
    it is falsy, the right operand otherwise. *)
Definition truthy (z : Z) : bool := negb (z =? 0)%Z.

Definition js_and (a b : Z) : Z := if truthy a then b else a.

(** The filter of [moveEnd$] (and of the plane's [drag$]) *)
Definition moves (e : MouseEvent) : bool :=
  truthy (js_and (movementX e) (movementY e)).

(** [GraphNode]'s [drag$], for one drag whose samples are [move] and the
    node snapshot [state]: the mutations sent on the [parent] channel, in
    emission order. *)
Definition moveStart (state : Node) (move : list MouseEvent)
  : list (Node -> Node) :=
  match take 1 move with
  | e :: _ =>
      if active (data state)
      then [dragNodes e]
      else if selected (data state) || shiftKey e
           then [makeActive (key state); dragNodes e]
           else [makeOnlySelected (key state); dragNodes e]
  | [] => []
  end.

Definition moveEnd (move : list MouseEvent) : list (Node -> Node) :=
  map dragNodes (filter (fun e => moves e = true) (drop 1 move)).

Definition drag_parent (state : Node) (move : list MouseEvent)
  : list (Node -> Node) :=
  moveStart state move ++ moveEnd move.

(** The continuation of a drag as the specification words it: a sample is
    re-emitted unless its delta is zero. *)
Definition moveEnd_nonzero_delta (move : list MouseEvent)
  : list (Node -> Node) :=
  map dragNodes
      (filter (fun e => ¬ (movementX e = 0%Z ∧ movementY e = 0%Z))
              (drop 1 move)).

(** ** graph-edge.js *)

(** [e.type === 'out-edge-node'] *)
Definition is_out (e : Node) : bool := bool_decide (type e = "out-edge-node").

(** [e.type === 'out-edge-node' && typeof e.data.linkedTo === 'undefined'] *)
Definition open_out (e : Node) : bool :=
  is_out e && bool_decide (linkedTo (data e) = None).

(** [updateEdgeNode(edgeNode, hoveredNode, position)] *)
Definition updateEdgeNode (edgeNode : Node) (hoveredNode : option Node)
    (position : option (R * R)) : Node :=
  with_data (spread edgeNode)
    (mkData (clickBox (data edgeNode)) (title (data edgeNode))
            (selected (data edgeNode)) (active (data edgeNode))
            (parentKey (data edgeNode))
            (match hoveredNode with
             | Some h => parentKey (data h)
             | None => None
             end)
            position).

(** The [self] mutation of a drag release:
    [eCopy = updateEdgeNode(e, hoveredNode, position); eCopy.data.to = undefined] *)
Definition finalize (hoveredNode : option Node) (position : option (R * R))
    (e : Node) : Node :=
  let eCopy := updateEdgeNode e hoveredNode position in
  with_data eCopy
    (mkData (clickBox (data eCopy)) (title (data eCopy))
            (selected (data eCopy)) (active (data eCopy))
            (parentKey (data eCopy)) (linkedTo (data eCopy)) None).

(** [e.key || 0] *)
Definition key_or_0 (e : Node) : Z :=
  match key e with
  | Some k => if truthy k then k else 0%Z
  | None => 0%Z
  end.

(** [addEdgeNode(node)].  [children[np1-1]] is undefined on an empty child
    list, which the frame operation cannot take: [None].  The new anchor is
    the copy that [translatedFrame] returns of the last child; the
    assignments [newEdge.data.linkedTo = undefined] and [newEdge.key = ...]
    are made on that copy, which in this view owns its [data]
    (section 4.1: every frame operation returns a new node). *)
Definition addEdgeNode (node : Node) : option Node :=
  let nodeCopy := spread node in
  let np1 := length (children nodeCopy) in
  match children nodeCopy !! (np1 - 1), children node with
  | Some lastc, c0 :: cs =>
      let newEdge :=
        frames.translatedFrame lastc
          (2 / (INR np1 * (INR np1 + 1)), 0)%R (worldMatrix node) in
      let newEdge :=
        with_data newEdge
          (mkData (clickBox (data newEdge)) (title (data newEdge))
                  (selected (data newEdge)) (active (data newEdge))
                  (parentKey (data newEdge)) None (to (data newEdge))) in
      let newEdge :=
        with_key newEdge
          (Some (math.max (key_or_0 c0) (map key_or_0 cs) + 1)%Z) in
      Some (with_children nodeCopy
              (imap (fun i e =>
                       if is_out e
                       then frames.translatedFrame e
                              (-2 * INR i / (INR np1 * (INR np1 + 1)), 0)%R
                              (worldMatrix node)
                       else e)
                    (children node)
               ++ [newEdge]))
  | _, _ => None
  end.

(** [removeEdgeNode(node, index)] *)
Definition removeEdgeNode (node : Node) (index : nat) : Node :=
  let np1 := length (children node) in
  let before :=
    imap (fun k e =>
            if is_out e
            then frames.translatedFrame e
                   (2 * INR k / (INR np1 * (INR np1 - 1)), 0)%R
                   (worldMatrix node)
            else e)
         (take index (children node)) in
  let after :=
    imap (fun k e =>
            frames.translatedFrame e
              (-2 * (INR np1 - (INR k + INR index + 1))
                 / (INR np1 * (INR np1 - 1)), 0)%R
              (worldMatrix node))
         (drop (index + 1) (children node)) in
  with_children (spread node) (before ++ after).

(** [updateGraphNode(node)]: the repair of the trailing open anchor *)
Definition updateGraphNode (node : Node) : option Node :=
  match findIndex open_out (children node) with
  | None => addEdgeNode node
  | Some index =>
      if (index =? length (children node) - 1)%nat
      then Some node
      else Some (removeEdgeNode node index)
  end.

(** The bundle a component returns: the mutations of its [self] and of its
    [parent] channel, in emission order. *)
Record sink : Type := Sink { self : list reducer; parent : list reducer }.

(** One interpreted drag sample of [hoverDrag$]:
    [{ hoveredNode, event }] or [{ position, event }]. *)
Record hoverSample : Type := mkSample {
  event : MouseEvent;
  hoveredNode : option Node;
  hposition : option (R * R)
}.

(** [GraphEdge]'s [drag$], on one sample *)
Definition edge_drag (s : hoverSample) : sink :=
  if bool_decide (etype (event s) = "mousemove")
  then Sink [fun e => Some (updateEdgeNode e (hoveredNode s) (hposition s))]
            []
  else Sink [fun e => Some (finalize (hoveredNode s) (hposition s) e)]
            [updateGraphNode].

(** ** graph-plane.js *)

(** [deselectGraphNodes(plane)] *)
Definition deselectGraphNodes (plane : Node) : Node :=
  let planeCopy := spread plane in
  with_children planeCopy (map deselectNode (children plane)).

Definition Rltb (x y : R) : bool := if Rlt_dec x y then true else false.

(** [changeZoom(event, plane)] *)
Definition changeZoom (event : MouseEvent) (plane : Node) : Node :=
  let zoomScale :=
    sqrt (math.norm
            (frames.vecFrameTrans (1, 1)%R (worldMatrix plane) math.identity)) in
  if Rltb zoomScale 5 && Rltb 0 (deltaY event) then plane
  else if Rltb 10 zoomScale && Rltb (deltaY event) 0 then plane
  else
    let mousePos := position event in
    let mouseFrame :=
      Mat 1 0 (fst mousePos)
          0 (-1) (snd mousePos)
          0 0 1 in
    let s := math.pow 1.1 (- deltaY event) in
    frames.scaledFrame plane (s * 1, s * 1)%R mouseFrame.

(** [dragPlane(plane, dx, dy)] *)
Definition dragPlane (plane : Node) (dx dy : Z) : Node :=
  let planeFrame :=
    frames.translatedFrame plane (IZR dx, IZR dy) math.identity in
  with_children planeFrame (map deselectNode (children planeFrame)).

(** The plane's own [drag$] on the samples of a drag *)
Definition plane_drag (move : list MouseEvent) : list (Node -> Node) :=
  map (fun e state => dragPlane state (movementX e) (movementY e))
      (filter (fun e => moves e = true) move).

(** ** graph-viewport.js (value view) *)

(** The Window matrix of a container of the given size *)
Definition window_matrix (width height : R) : matrix :=
  Mat (width / 2) 0 (width / 2)
      0 (- height / 2) (height / 2)
      0 0 1.


(** ** The store view: objects, references, exceptions *)

Module Store.

Definition loc : Type := nat.

(** JavaScript values.  A matrix of [mathjs] is never updated in place by
    the code and is kept as a value; [VFun] is a binding of the module
    (an import or a function declaration). *)
Inductive val : Type :=
| VUndef
| VBool (b : bool)
| VNum (z : Z)
| VStr (s : string)
| VMat (m : matrix)
| VFun (name : string)
| VRef (l : loc).

(** An object is a map from property names to values, an array a list. *)
Inductive object : Type :=
| OObj (props : gmap string val)
| OArr (elems : list val).

Record store : Type := mkStore { objs : gmap loc object; next : loc }.

Inductive exn : Type :=
| TypeError
| ReferenceError (name : string)
| Unmodelled.

Inductive res (A : Type) : Type :=
| Ok (a : A)
| Raise (e : exn).
Arguments Ok {A} a.
Arguments Raise {A} e.

(** Computations: they read and update the store and may raise. *)
Definition M (A : Type) : Type := store -> res A * store.

Definition ret {A} (a : A) : M A := fun s => (Ok a, s).

Definition raise {A} (e : exn) : M A := fun s => (Raise e, s).

Definition bind {A B} (m : M A) (k : A -> M B) : M B := fun s =>
  match m s with
  | (Ok a, s') => k a s'
  | (Raise e, s') => (Raise e, s')
  end.

#[global] Instance M_ret : MRet M := @ret.
#[global] Instance M_bind : MBind M := fun A B k m => bind m k.

(** [new]: a fresh object *)
Definition alloc (o : object) : M val := fun s =>
  (Ok (VRef (next s)), mkStore (<[next s := o]> (objs s)) (S (next s))).

Definition deref (l : loc) : M object := fun s =>
  match objs s !! l with
  | Some o => (Ok o, s)
  | None => (Raise Unmodelled, s)
  end.

(** The own properties of an array, as object spread sees them *)
Definition array_props (elems : list val) : gmap string val :=
  list_to_map (imap (fun i v => (pretty i, v)) elems).

(** [v.f]: reading a property of [undefined] raises [TypeError]; any other
    primitive has no property of its own. *)
Definition get (v : val) (f : string) : M val :=
  match v with
  | VUndef => raise TypeError
  | VRef l =>
      o ← deref l;
      match o with
      | OObj props => ret (default VUndef (props !! f))
      | OArr elems =>
          if bool_decide (f = "length")
          then ret (VNum (Z.of_nat (length elems)))
          else ret (default VUndef (array_props elems !! f))
      end
  | _ => ret VUndef
  end.

(** [v[i]] *)
Definition index (v : val) (i : nat) : M val :=
  match v with
  | VUndef => raise TypeError
  | VRef l =>
      o ← deref l;
      match o with
      | OObj props => ret (default VUndef (props !! pretty i))
      | OArr elems => ret (default VUndef (elems !! i))
      end
  | _ => ret VUndef
  end.

Definition update (l : loc) (o : object) : M () := fun s =>
  (Ok (), mkStore (<[l := o]> (objs s)) (next s)).

(** [v.f = x], in strict code: an assignment on anything but an object
    raises [TypeError]. *)
Definition set (v : val) (f : string) (x : val) : M () :=
  match v with
  | VRef l =>
      o ← deref l;
      match o with
      | OObj props => update l (OObj (<[f := x]> props))
      | OArr _ => raise Unmodelled
      end
  | _ => raise TypeError
  end.

(** The elements of [v] for an array method ([v.map], [v.filter], a spread
    into an array literal): calling one on something that is not an array
    raises [TypeError]. *)
Definition elements (v : val) : M (list val) :=
  match v with
  | VRef l =>
      o ← deref l;
      match o with
      | OArr elems => ret elems
      | OObj _ => raise TypeError
      end
  | _ => raise TypeError
  end.

(** The own properties copied by [{ ...v }]: none for a primitive. *)
Definition own_props (v : val) : M (gmap string val) :=
  match v with
  | VRef l =>
      o ← deref l;
      match o with
      | OObj props => ret props
      | OArr elems => ret (array_props elems)
      end
  | _ => ret ∅
  end.

(** [{ ...v }]: a new object with the properties of [v]; the property
    values, references included, are shared with [v]. *)
Definition spread (v : val) : M val :=
  props ← own_props v;
  alloc (OObj props).

(** Truthiness *)
Definition truthy (v : val) : bool :=
  match v with
  | VUndef => false
  | VBool b => b
  | VNum z => negb (z =? 0)%Z
  | VStr s => negb (String.eqb s "")
  | VMat _ | VFun _ | VRef _ => true
  end.

(** [array.filter(p)]: a new array *)
Fixpoint filterM (p : val -> M bool) (l : list val) : M (list val) :=
  match l with
  | [] => ret []
  | x :: l' =>
      b ← p x;
      r ← filterM p l';
      ret (if b : bool then x :: r else r)
  end.

(** [array.map(f)]: a new array *)
Fixpoint mapM (f : val -> M val) (l : list val) : M (list val) :=
  match l with
  | [] => ret []
  | x :: l' =>
      y ← f x;
      r ← mapM f l';
      ret (y :: r)
  end.

(** The bindings of the module [graph-viewport.js]: its imports and its
    function declarations. *)
Definition module_scope : list string :=
  [ "xs"; "sampleCombine"; "u"; "h"; "withWorldMatrix"; "scaledFrame";
    "MouseObject"; "FilteredMouse"; "parentSize"; "refreshReducer";
    "mountCanvas"; "math"; "GraphPlane"; "renderPlane"; "renderGraphNode";
    "renderGraphEdge"; "GraphViewport"; "renderGraphViewport"; "resizeState";
    "deleteSelectedNodes"; "appendNode" ].

(** An identifier that is neither a parameter nor a local of the function
    that reads it: it resolves in the module scope, and reading a name that
    nothing binds raises [ReferenceError].  (The global object of the page
    has no property named [height] or [deselectBox] either.) *)
Definition identifier (x : string) : M val :=
  if bool_decide (x ∈ module_scope) then ret (VFun x)
  else raise (ReferenceError x).

(** Calling a value: the bindings of the module are not applied to nodes by
    the functions below, so a call through one is outside the model;
    anything else is not a function. *)
Definition call (f : val) (x : val) : M val :=
  match f with
  | VFun _ => raise Unmodelled
  | _ => raise TypeError
  end.

(** [u(type, props, children)] of [unist-builder]:
    [Object.assign({ type }, props)] with [children] set when given. *)
Definition u (ty : string) (props : val) (children : option val) : M val :=
  ps ← own_props props;
  let node := ps ∪ {[ "type" := VStr ty ]} in
  alloc (OObj (match children with
               | Some cs => <["children" := cs]> node
               | None => node
               end)).

(** *** graph-node.js *)

(** [selectNode(node)] *)
Definition selectNode (node : val) : M val :=
  nodeCopy ← spread node;
  d ← get nodeCopy "data";
  set d "selected" (VBool true);;
  d ← get nodeCopy "data";
  set d "active" (VBool true);;
  ret nodeCopy.

(** [deselectNode(node)] *)
Definition deselectNode (node : val) : M val :=
  nodeCopy ← spread node;
  d ← get nodeCopy "data";
  set d "selected" (VBool false);;
  d ← get nodeCopy "data";
  set d "active" (VBool false);;
  ret nodeCopy.

(** *** graph-viewport.js *)

(** [n => n.data.selected], as the test of a filter *)
Definition is_selected (n : val) : M bool :=
  d ← get n "data";
  s ← get d "selected";
  ret (truthy s).

(** [{ ...windowFrame, children: [planeFrame] }] *)
Definition window_with_plane (windowFrame planeFrame : val) : M val :=
  ps ← own_props windowFrame;
  cs ← alloc (OArr [planeFrame]);
  alloc (OObj (<["children" := cs]> ps)).

(** [deleteSelectedNodes(tree)].  In the object literal
    [{ canvas: tree.canvas, width: tree.width, width: height }] the second
    [width] replaces the first, and [height] is an identifier read from the
    enclosing scopes.  (The older copy of the module passes [id: tree.id]
    where this one passes [canvas: tree.canvas], and tags the root ['root'];
    the rest is the same text.) *)
Definition deleteSelectedNodes (tree : val) : M val :=
  tc ← get tree "children";
  windowFrame ← index tc 0;
  wc ← get windowFrame "children";
  planeFrame ← index wc 0;
  pc ← get planeFrame "children";
  elems ← elements pc;
  kept ← filterM is_selected elems;
  keptArr ← alloc (OArr kept);
  set planeFrame "children" keptArr;;
  c ← get tree "canvas";
  w ← get tree "width";
  h ← identifier "height";
  props ← alloc (OObj (<["width" := h]> (<["width" := w]> {[ "canvas" := c ]})));
  wf ← window_with_plane windowFrame planeFrame;
  arr ← alloc (OArr [wf]);
  u "GraphViewport" props (Some arr).

(** [m.valueOf()] for a matrix [m] of [mathjs] *)
Definition valueOf (v : val) : M matrix :=
  match v with
  | VMat m => ret m
  | _ => raise TypeError
  end.

Definition number (v : val) : M Z :=
  match v with
  | VNum z => ret z
  | _ => raise TypeError
  end.

(** [math.max(array)] on numbers, which the keys of GraphNodes are.  What
    [mathjs] returns for an element that is not a number (the key of a node
    that has none) is not modelled: the call stops with [TypeError] here,
    where the code may go on to the next exception.  Only the kind of the
    exception that [appendNode] ends with on such a scene depends on it. *)
Definition math_max (l : list val) : M Z :=
  match l with
  | [] => raise TypeError
  | x :: xs =>
      z ← number x;
      zs ← (fix go (l : list val) : M (list Z) :=
              match l with
              | [] => ret []
              | y :: l' => a ← number y; r ← go l'; ret (a :: r)
              end) xs;
      ret (math.max z zs)
  end.

(** [{ clickBox: [a, b, c, d], ...rest }] *)
Definition data_object (box : list Z) (rest : list (string * val)) : M val :=
  cb ← alloc (OArr (VNum <$> box));
  alloc (OObj (<["clickBox" := cb]> (list_to_map rest))).

(** [appendNode(tree)].  [deselectBox] is an identifier read from the
    enclosing scopes. *)
Definition appendNode (tree : val) : M val :=
  tc ← get tree "children";
  windowFrame ← index tc 0;
  wc ← get windowFrame "children";
  planeFrame ← index wc 0;
  wMv ← get windowFrame "worldMatrix";
  wM ← valueOf wMv;
  pMv ← get planeFrame "worldMatrix";
  pM ← valueOf pMv;
  pc ← get planeFrame "children";
  len ← get pc "length";
  key ← (if truthy len
         then elems ← elements pc;
              keys ← mapM (fun c => get c "key") elems;
              mx ← math_max keys;
              ret (mx + 1)%Z
         else ret 0%Z);
  d ← data_object [-1; -1; 1; 1]%Z
        [("selected", VBool true); ("active", VBool true); ("title", VStr "")];
  newBoxData ← alloc (OObj (list_to_map
    [("worldMatrix",
      VMat (Mat (2.5 * m00 pM) 0 (m02 wM)
                0 (m11 pM) (m12 wM)
                0 0 1));
     ("key", VNum key);
     ("data", d)]));
  d ← data_object [-4; -4; 4; 1]%Z [("parentKey", VNum key)];
  inEdgeNodeData ← alloc (OObj (list_to_map
    [("worldMatrix",
      VMat (Mat (0.1 * m00 pM) 0 (m02 wM)
                0 (0.1 * m11 pM) (m12 wM + 0.9 * m11 pM)
                0 0 1));
     ("data", d)]));
  d ← data_object [-4; -1; 4; 4]%Z [("parentKey", VNum key)];
  outEdgeNodeData ← alloc (OObj (list_to_map
    [("worldMatrix",
      VMat (Mat (0.1 * m00 pM) 0 (m02 wM)
                0 (0.1 * m11 pM) (m12 wM - 0.9 * m11 pM)
                0 0 1));
     ("key", VNum 0);
     ("data", d)]));
  inE ← u "in-edge-node" inEdgeNodeData None;
  outE ← u "out-edge-node" outEdgeNodeData None;
  edges ← alloc (OArr [inE; outE]);
  newBox ← u "graph-node" newBoxData (Some edges);
  pc ← get planeFrame "children";
  elems ← elements pc;
  deselectBox ← identifier "deselectBox";
  others ← mapM (call deselectBox) elems;
  cs ← alloc (OArr (newBox :: others));
  set planeFrame "children" cs;;
  c ← get tree "canvas";
  w ← get tree "width";
  h ← get tree "height";
  props ← alloc (OObj (list_to_map [("canvas", c); ("width", w); ("height", h)]));
  wf ← window_with_plane windowFrame planeFrame;
  arr ← alloc (OArr [wf]);
  u "GraphViewport" props (Some arr).

End Store.


(** ** Invariants and relations used in the statements *)

(** The trailing-anchor invariant of a GraphNode: exactly one child is an
    out-edge node without [linkedTo], and it is the last child. *)
Definition trailing_anchor (node : Node) : Prop :=
  length (filter (fun c => open_out c = true) (children node)) = 1
  ∧ ∃ c, last (children node) = Some c ∧ open_out c = true.

(** [c'] is [c] moved along the x axis of [node]'s frame *)
Definition shifted_in (node : Node) (c c' : Node) : Prop :=
  ∃ d : R, c' = frames.translatedFrame c (d, 0%R) (worldMatrix node).

(** ** The mutations that reach the Plane *)

(** [GraphNode]'s [shiftclick$], on the node snapshot [state] *)
Definition shiftclick (state : Node) : sink :=
  if active (data state)
  then Sink [fun n => Some (deselectNode n)] []
  else Sink [fun n => Some (selectNode n)]
            [fun p => Some (makeActive (key state) p)].

(** [GraphNode]'s [onlySelected$] *)
Definition onlySelected (parent state : Node) : bool :=
  selected (data state)
  && (length (filter (fun c => selected (data c) = true) (children parent))
      =? 1)%nat.

(** [GraphNode]'s [click$] *)
Definition click (state : Node) (only : bool) : sink :=
  if active (data state)
  then if only
       then Sink [fun n => Some (deselectNode n)] []
       else Sink [] [fun p => Some (makeOnlySelected (key state) p)]
  else Sink [] [fun p => Some (makeOnlySelected (key state) p)].

(** What a component keyed [k] sends to its parent's state: its [self]
    mutations lifted by [liftReducer('self')], then its [parent] mutations
    ([xs.merge] subscribes to the lifted [self] channel first). *)
Definition emitted (k : option Z) (s : sink) : list reducer :=
  map (fun r => lift (keyReducer k r)) (self s) ++ parent s.

(** Mutations applied one at a time, in order, to the state *)
Definition run (ms : list reducer) (p : Node) : option Node :=
  foldl (fun acc m => acc ≫= m) (Some p) ms.

(** The mutations of a GraphNode's own state ([self] channel of
    [GraphNode]) *)
Inductive node_mutation : Type :=
| SelectNode
| DeselectNode
| EdgeMove (edgeKey : option Z) (s : hoverSample)
| EdgeRelease (edgeKey : option Z) (s : hoverSample)
| EdgeRepair.

Definition node_reducer (m : node_mutation) : reducer :=
  match m with
  | SelectNode => fun n => Some (selectNode n)
  | DeselectNode => fun n => Some (deselectNode n)
  | EdgeMove ek s =>
      lift (keyReducer ek
              (fun e => Some (updateEdgeNode e (hoveredNode s) (hposition s))))
  | EdgeRelease ek s =>
      lift (keyReducer ek
              (fun e => Some (finalize (hoveredNode s) (hposition s) e)))
  | EdgeRepair => updateGraphNode
  end.

(** The mutations of the Plane ([state] sink of [GraphPlane]) *)
Inductive plane_mutation : Type :=
| Zoom (e : MouseEvent)
| DragPlane (e : MouseEvent)
| DeselectGraphNodes
| OnNode (nodeKey : option Z) (m : node_mutation)
| MakeActive (nodeKey : option Z)
| MakeOnlySelected (nodeKey : option Z)
| DragNodes (e : MouseEvent).

Definition plane_reducer (m : plane_mutation) : reducer :=
  match m with
  | Zoom e => fun p => Some (changeZoom e p)
  | DragPlane e => fun p => Some (dragPlane p (movementX e) (movementY e))
  | DeselectGraphNodes => fun p => Some (deselectGraphNodes p)
  | OnNode k m => lift (keyReducer k (node_reducer m))
  | MakeActive k => fun p => Some (makeActive k p)
  | MakeOnlySelected k => fun p => Some (makeOnlySelected k p)
  | DragNodes e => fun p => Some (dragNodes e p)
  end.

(** One mutation applied to the Plane *)
Definition step (p p' : Node) : Prop := ∃ m, plane_reducer m p = Some p'.

(** One emission applied to the Plane: a shift-click or a click sends its
    whole bundle (the [selectNode] of a shift-click goes with the
    [makeActive] sent along with it); every other mutation stands alone. *)
Inductive emission_step (p p' : Node) : Prop :=
| emission_shiftclick state :
    run (emitted (key state) (shiftclick state)) p = Some p' →
    emission_step p p'
| emission_click state only :
    run (emitted (key state) (click state only)) p = Some p' →
    emission_step p p'
| emission_single m :
    (∀ k, m ≠ OnNode k SelectNode) →
    plane_reducer m p = Some p' →
    emission_step p p'.

(** At most one GraphNode of the Plane is active; an active one is
    selected. *)
Definition at_most_one_active (cs : list Node) : Prop :=
  length (filter (fun c => active (data c) = true) cs) ≤ 1.

Definition active_implies_selected (cs : list Node) : Prop :=
  Forall (fun c => active (data c) = true → selected (data c) = true) cs.

Definition selection_inv (plane : Node) : Prop :=
  at_most_one_active (children plane)
  ∧ active_implies_selected (children plane).

(** ** Measures of the Plane on the canvas *)

(** The on-screen length of the Plane's unit diagonal [[1, 1]] *)
Definition unit_diagonal_length (plane : Node) : R :=
  math.norm (frames.vecFrameTrans (1, 1)%R (worldMatrix plane) math.identity).

(** The quantity [changeZoom] compares with 5 and 10 *)
Definition zoomScale (plane : Node) : R := sqrt (unit_diagonal_length plane).

(** A matrix whose last row has no part in the linear map: every matrix
    the frame operations build from the seeds of the application. *)
Definition affine (m : matrix) : Prop := m20 m = 0%R ∧ m21 m = 0%R.


(** ** Notions used by the further properties *)

(** A GraphNode that is neither selected nor active *)
Definition idle (n : Node) : Prop :=
  selected (data n) = false ∧ active (data n) = false.

(** What a call [f(node)] does when it writes the flag value [b] through
    the [data] reference of the node at [l]: it returns a reference to a new
    object with the properties of the node, the [data] object at [d] gets
    the two flags, and no other object changes. *)
Definition writes_through (f : Store.val → Store.M Store.val) (b : bool)
    (σ : Store.store) (l d : Store.loc) (props dprops : gmap string Store.val)
  : Prop :=
  ∃ σ',
    f (Store.VRef l) σ = (Store.Ok (Store.VRef (Store.next σ)), σ')
    ∧ Store.objs σ' !! Store.next σ = Some (Store.OObj props)
    ∧ Store.objs σ' !! d
      = Some (Store.OObj (<["active" := Store.VBool b]>
                            (<["selected" := Store.VBool b]> dprops)))
    ∧ ∀ l', l' ≠ d → l' ≠ Store.next σ →
            Store.objs σ' !! l' = Store.objs σ !! l'.

(** A computation that changes no object of the store it starts from: it
    may only read, raise, and allocate at fresh locations. *)
Definition keeps_objects {A} (m : Store.M A) : Prop :=
  ∀ σ, Store.next σ ≤ Store.next (snd (m σ))
       ∧ ∀ l, l < Store.next σ →
              Store.objs (snd (m σ)) !! l = Store.objs σ !! l.

(** [n.data.selected] read as a truth value in the store [σ]; [false] when
    the read raises *)
Definition selected_in (σ : Store.store) (n : Store.val) : bool :=
  match fst (Store.is_selected n σ) with
  | Store.Ok b => b
  | Store.Raise _ => false
  end.

(** The anchor has no [linkedTo] or no [to] *)
Definition exclusive (c : Node) : Prop :=
  linkedTo (data c) = None ∨ to (data c) = None.

(** A sample of [hoverDrag$] carries the hovered node or the position *)
Definition one_of (s : hoverSample) : Prop :=
  hoveredNode s = None ∨ hposition s = None.

(** ** Example inputs *)

(** A GraphNode as [appendNode] lays it out: the InEdgeNode, then one open
    out-edge node keyed 0 *)
Definition one_anchor_node : Node :=
  mkNode "graph-node" (Some 0%Z) math.identity
    (mkData [] "" false false None None None)
    [ mkNode "in-edge-node" None math.identity
        (mkData [] "" false false (Some 0%Z) None None) [];
      mkNode "out-edge-node" (Some 0%Z) math.identity
        (mkData [] "" false false (Some 0%Z) None None) [] ].

(** A move sample of five pixels to the right *)
Definition horizontal_move : MouseEvent :=
  mkEvent "mousemove" false 5 0 0 (0, 0)%R.

(** A release over the InEdgeNode of the node keyed 1 *)
Definition release_on_other : hoverSample :=
  mkSample (mkEvent "mouseup" false 0 0 0 (0, 0)%R)
    (Some (mkNode "in-edge-node" None math.identity
             (mkData [] "" false false (Some 1%Z) None None) []))
    None.

(** The [data] of a GraphNode with the given flags *)
Definition plain_data (sel act : bool) : Data :=
  mkData [-1; -1; 1; 1]%Z "" sel act None None None.

(** A Plane with an active node keyed 0 and an idle node keyed 1 *)
Definition two_node_plane : Node :=
  mkNode "plane" None math.identity (plain_data false false)
    [ mkNode "graph-node" (Some 0%Z) math.identity (plain_data true true) [];
      mkNode "graph-node" (Some 1%Z) math.identity (plain_data false false) [] ].

(** The same Plane after the lone [selectNode] on the node keyed 1 *)
Definition two_node_plane_selected : Node :=
  mkNode "plane" None math.identity (plain_data false false)
    [ mkNode "graph-node" (Some 0%Z) math.identity (plain_data true true) [];
      mkNode "graph-node" (Some 1%Z) math.identity (plain_data true true) [] ].

(** The same Plane after the [makeActive] that follows it *)
Definition two_node_plane_promoted : Node :=
  mkNode "plane" None math.identity (plain_data false false)
    [ mkNode "graph-node" (Some 1%Z) math.identity (plain_data true true) [];
      mkNode "graph-node" (Some 0%Z) math.identity (plain_data true false) [] ].

(** A GraphNode whose only out-edge node is linked *)
Definition linked_in_edge : Node :=
  mkNode "in-edge-node" None math.identity
    (mkData [-4; -4; 4; 1]%Z "" false false (Some 0%Z) None None) [].

Definition linked_out_edge : Node :=
  mkNode "out-edge-node" (Some 0%Z) math.identity
    (mkData [-4; -1; 4; 4]%Z "" false false (Some 0%Z) (Some 1%Z) None) [].

Definition linked_node : Node :=
  mkNode "graph-node" (Some 0%Z) math.identity (plain_data false false)
    [linked_in_edge; linked_out_edge].

(** A Plane whose unit diagonal is 8 pixels long, and a wheel event *)
Definition plane_8px : Node :=
  mkNode "plane" None
    (Mat (24 / 5) 0 0
         0 (- 32 / 5) 0
         0 0 1)
    (plain_data false false) [].

Definition wheel_in : MouseEvent := mkEvent "wheel" false 0 0 (-3) (0, 0)%R.

(** The scene of an 800x600 container whose Plane shows 30 pixels per
    unit, centred *)
Definition plane_30px : Node :=
  mkNode "plane" None
    (Mat 30 0 400
         0 (-30) 300
         0 0 1)
    (plain_data false false) [].




(** A store holding one idle GraphNode: the node at 0, its [data] at 1, its
    [children] at 2 *)
Definition idle_node_store : Store.store :=
  Store.mkStore
    (list_to_map
       [ (0, Store.OObj (list_to_map
                [ ("type", Store.VStr "graph-node");
                  ("key", Store.VNum 0);
                  ("worldMatrix", Store.VMat math.identity);
                  ("data", Store.VRef 1);
                  ("children", Store.VRef 2) ]));
         (1, Store.OObj (list_to_map
                [ ("title", Store.VStr "");
                  ("selected", Store.VBool false);
                  ("active", Store.VBool false) ]));
         (2, Store.OArr []) ])
    3.

(** A store holding a scene: the root at 0, the Window at 2, the Plane at 4
    and the Plane's [children] array at 5, with the given GraphNodes *)
Definition scene_store (nodes : list Store.val)
    (rest : list (Store.loc * Store.object)) (next : Store.loc)
  : Store.store :=
  Store.mkStore
    (list_to_map
       ([ (0, Store.OObj (list_to_map
                 [ ("type", Store.VStr "GraphViewport");
                   ("canvas", Store.VStr "canvas");
                   ("width", Store.VNum 800);
                   ("height", Store.VNum 600);
                   ("children", Store.VRef 1) ]));
          (1, Store.OArr [Store.VRef 2]);
          (2, Store.OObj (list_to_map
                 [ ("type", Store.VStr "window");
                   ("worldMatrix", Store.VMat (window_matrix 800 600));
                   ("children", Store.VRef 3) ]));
          (3, Store.OArr [Store.VRef 4]);
          (4, Store.OObj (list_to_map
                 [ ("type", Store.VStr "plane");
                   ("worldMatrix", Store.VMat (worldMatrix plane_30px));
                   ("children", Store.VRef 5) ]));
          (5, Store.OArr nodes) ] ++ rest))
    next.

(** The scene with an empty Plane *)
Definition empty_scene : Store.store := scene_store [] [] 6.

(** The scene with a selected GraphNode (at 6, keyed 0) followed by an
    unselected one (at 8, keyed 1) *)
Definition graph_node_object (k : Z) (d : Store.loc) : Store.object :=
  Store.OObj (list_to_map
    [ ("type", Store.VStr "graph-node");
      ("key", Store.VNum k);
      ("worldMatrix", Store.VMat math.identity);
      ("data", Store.VRef d) ]).

Definition two_node_scene : Store.store :=
  scene_store [Store.VRef 6; Store.VRef 8]
    [ (6, graph_node_object 0 7);
      (7, Store.OObj (list_to_map [ ("selected", Store.VBool true);
                                    ("active", Store.VBool true) ]));
      (8, graph_node_object 1 9);
      (9, Store.OObj (list_to_map [ ("selected", Store.VBool false);
                                    ("active", Store.VBool false) ])) ]
    10.

(** * Properties *)

(** ** Records and lists *)

Lemma spread_id n : spread n = n.
Proof. by destruct n. Qed.

Lemma with_children_id n : with_children n (children n) = n.
Proof. by destruct n. Qed.

Lemma findIndex_None p l :
  findIndex p l = None ↔ Forall (fun c => p c = false) l.
Proof.
  unfold findIndex. rewrite fmap_None, list_find_None.
  apply Forall_proper; [|done]. intros c. by destruct (p c).
Qed.

Lemma findIndex_Some p l i :
  findIndex p l = Some i ↔
  ∃ c, l !! i = Some c ∧ p c = true
       ∧ ∀ j y, l !! j = Some y → j < i → p y = false.
Proof.
  unfold findIndex. rewrite fmap_Some. split.
  - intros [[j c] [Hf ->]]. apply list_find_Some in Hf as (Hl & Hp & Hlt).
    exists c. split_and!; [done..|]. intros j' y Hy Hj.
    specialize (Hlt j' y Hy Hj). by destruct (p y).
  - intros (c & Hl & Hp & Hlt). exists (i, c). split; [|done].
    apply list_find_Some. split_and!; [done..|].
    intros j y Hy Hj. rewrite (Hlt j y Hy Hj). done.
Qed.

(** ** Stale keys ([liftReducer]) *)

Lemma lift_absent (parent : Node) (k : option Z) (r : reducer) :
  (∀ c, c ∈ children parent → key c ≠ k) →
  lift (keyReducer k r) parent = Some parent.
Proof.
  intros Hk. unfold lift, keyReducer. simpl.
  assert (findIndex (key_is k) (children parent) = None) as ->.
  { apply findIndex_None, Forall_forall. intros c Hc.
    unfold key_is. apply bool_decide_eq_false. by apply Hk. }
  by destruct parent.
Qed.

(** C7.  For every parent node and every key [k] that no child of the
    parent carries, each parent-level mutation that [liftReducer] makes from
    a child mutation keyed [k] returns the parent itself (same fields, same
    children) and does not raise: the child mutation is never called. *)
Theorem liftReducer_stale_key_is_identity
    (parent : Node) (k : option Z) (rs : list reducer) :
  (∀ c, c ∈ children parent → key c ≠ k) →
  Forall (fun m => m parent = Some parent) (liftReducer (keyReducer k <$> rs)).
Proof.
  intros Hk. unfold liftReducer. rewrite Forall_fmap, Forall_fmap.
  apply Forall_forall. intros r _. simpl. by apply lift_absent.
Qed.

Lemma liftReducer_stale_key_is_identity_witness :
  Forall (fun m => m one_anchor_node = Some one_anchor_node)
         (liftReducer (keyReducer (Some 7%Z) <$> [fun _ => None])).
Proof.
  apply liftReducer_stale_key_is_identity.
  intros c Hc. simpl in Hc.
  apply elem_of_cons in Hc as [-> | Hc]; [done|].
  apply elem_of_cons in Hc as [-> | Hc]; [simpl; congruence|].
  by apply elem_of_nil in Hc.
Defined.

(** ** Drag continuation ([GraphNode]'s [drag$]) *)

Lemma moves_iff e : moves e = true ↔ movementX e ≠ 0%Z ∧ movementY e ≠ 0%Z.
Proof.
  unfold moves, js_and, truthy.
  destruct (Z.eqb_spec (movementX e) 0) as [Hx | Hx]; simpl.
  - rewrite Hx. simpl. split; [done | intros [? _]; done].
  - destruct (Z.eqb_spec (movementY e) 0) as [Hy | Hy]; simpl.
    + split; [done | intros [_ ?]; done].
    + done.
Qed.

Lemma moveEnd_filter (e0 : MouseEvent) (rest : list MouseEvent) :
  moveEnd (e0 :: rest) =
  map dragNodes
      (filter (fun e => movementX e ≠ 0%Z ∧ movementY e ≠ 0%Z) rest).
Proof.
  unfold moveEnd. simpl. f_equal.
  apply list_filter_iff. intros e. apply moves_iff.
Qed.

(** C9 (what the code does).  During a node drag, a move sample after the
    first is re-emitted as a "move the selected siblings" mutation exactly
    when both [movementX] and [movementY] are non-zero: the filter
    [e.movementX && e.movementY] of [moveEnd$] also drops every sample whose
    delta is not zero but lies along one axis, although [moveStart$] emits
    the first sample of the same drag whatever its delta. *)
Theorem moveEnd_emits_iff_both_nonzero (e0 : MouseEvent) (rest : list MouseEvent) :
  moveEnd (e0 :: rest) =
  map dragNodes
      (filter (fun e => movementX e ≠ 0%Z ∧ movementY e ≠ 0%Z) rest)
  ∧ ∀ e, length (moveEnd [e0; e]) =
         if bool_decide (movementX e ≠ 0%Z ∧ movementY e ≠ 0%Z) then 1 else 0.
Proof.
  split; [apply moveEnd_filter|].
  intros e. rewrite moveEnd_filter. case_bool_decide as H.
  - by rewrite filter_cons_True.
  - by rewrite filter_cons_False.
Qed.

(** A horizontal move: the delta is not zero, nothing is emitted, and the
    continuation worded by the specification would emit it. *)
Lemma moveEnd_suppresses_axis_aligned_sample :
  (movementX horizontal_move ≠ 0%Z ∨ movementY horizontal_move ≠ 0%Z)
  ∧ moveEnd [horizontal_move; horizontal_move] = []
  ∧ moveEnd [horizontal_move; horizontal_move]
    ≠ moveEnd_nonzero_delta [horizontal_move; horizontal_move].
Proof.
  split_and!.
  - by left.
  - reflexivity.
  - intros H. apply (f_equal length) in H. revert H.
    unfold moveEnd_nonzero_delta. simpl drop.
    rewrite filter_cons_True by (simpl; intros [? _]; done).
    rewrite moveEnd_filter.
    rewrite filter_cons_False by (simpl; intros [_ ?]; done).
    simpl. discriminate.
Qed.

(** A drag along one axis moves the nodes once: on an active node the first
    sample is emitted, whatever its delta, and every later sample along an
    axis is dropped, so that the node follows the pointer by the first
    sample only. *)
Lemma drag_along_an_axis_moves_once (state : Node) (e : MouseEvent)
    (rest : list MouseEvent) :
  active (data state) = true →
  Forall (fun e' => movementX e' = 0%Z ∨ movementY e' = 0%Z) rest →
  drag_parent state (e :: rest) = [dragNodes e].
Proof.
  intros Hact Hrest. unfold drag_parent, moveStart.
  cbn [take]. rewrite Hact, moveEnd_filter.
  replace (filter (fun e' => movementX e' ≠ 0%Z ∧ movementY e' ≠ 0%Z) rest)
    with (@nil MouseEvent); [reflexivity|].
  symmetry. induction Hrest as [|e' rest' He' _ IH]; [reflexivity|].
  rewrite filter_cons_False by (intros [? ?]; destruct He'; done).
  exact IH.
Qed.

(** Three samples of five pixels to the right on an active node: one
    mutation is sent, for the first sample. *)
Lemma horizontal_drag_moves_by_its_first_sample :
  drag_parent (mkNode "graph-node" (Some 0%Z) math.identity
                 (plain_data true true) [])
    [horizontal_move; horizontal_move; horizontal_move]
  = [dragNodes horizontal_move].
Proof.
  apply drag_along_an_axis_moves_once; [reflexivity|].
  repeat constructor; by right.
Qed.

(** ** Frame operations keep tags, keys and data *)

Lemma type_transformedByMatrix t n : type (frames.transformedByMatrix t n) = type n.
Proof. by destruct n. Qed.

Lemma key_transformedByMatrix t n : key (frames.transformedByMatrix t n) = key n.
Proof. by destruct n. Qed.

Lemma data_transformedByMatrix t n : data (frames.transformedByMatrix t n) = data n.
Proof. by destruct n. Qed.

Lemma children_transformedByMatrix t n :
  children (frames.transformedByMatrix t n)
  = map (frames.transformedByMatrix t) (children n).
Proof. by destruct n. Qed.

Lemma worldMatrix_transformedByMatrix t n :
  worldMatrix (frames.transformedByMatrix t n) = math.multiply t (worldMatrix n).
Proof. by destruct n. Qed.

Lemma is_out_translatedFrame e d r : is_out (frames.translatedFrame e d r) = is_out e.
Proof. unfold is_out, frames.translatedFrame. by rewrite type_transformedByMatrix. Qed.

Lemma open_out_translatedFrame e d r :
  open_out (frames.translatedFrame e d r) = open_out e.
Proof.
  unfold open_out. rewrite is_out_translatedFrame.
  unfold frames.translatedFrame. by rewrite data_transformedByMatrix.
Qed.

Lemma Forall2_imap {A B} (P : A → B → Prop) (g : nat → A → B) (l : list A) :
  (∀ i x, l !! i = Some x → P x (g i x)) → Forall2 P l (imap g l).
Proof.
  revert g. induction l as [|x l IH]; intros g Hg; simpl; constructor.
  - by apply (Hg 0).
  - apply IH. intros i y Hy. by apply (Hg (S i)).
Qed.

Lemma Forall_imap {A B} (P : B → Prop) (g : nat → A → B) (l : list A) :
  (∀ i x, l !! i = Some x → P (g i x)) → Forall P (imap g l).
Proof.
  revert g. induction l as [|x l IH]; intros g Hg; simpl; constructor.
  - by apply (Hg 0).
  - apply IH. intros i y Hy. by apply (Hg (S i)).
Qed.

(** ** The trailing-anchor repair ([updateGraphNode]) *)

Lemma trailing_anchor_split node :
  trailing_anchor node ↔
  ∃ pre lastc, children node = pre ++ [lastc]
               ∧ Forall (fun c => open_out c = false) pre
               ∧ open_out lastc = true.
Proof.
  unfold trailing_anchor. split.
  - intros [Hlen (c & Hlast & Hc)].
    apply last_Some in Hlast as [pre Hpre].
    exists pre, c. split_and!; [done| |done].
    rewrite Hpre, filter_app, length_app in Hlen.
    rewrite filter_cons_True in Hlen by done. simpl in Hlen.
    assert (filter (fun c => open_out c = true) pre = []) as Hnil.
    { apply length_zero_iff_nil. lia. }
    apply Forall_forall. intros x Hx.
    destruct (open_out x) eqn:Hox; [|done].
    exfalso. eapply filter_nil_not_elem_of; [exact Hnil| |exact Hx]. done.
  - intros (pre & lastc & Hcs & Hpre & Hlast). rewrite Hcs. split.
    + rewrite filter_app, length_app, filter_cons_True by done. simpl.
      assert (filter (fun c => open_out c = true) pre = []) as ->; [|done].
      clear Hcs. induction Hpre as [|x l Hx _ IH]; [done|].
      rewrite filter_cons_False; [done|]. by rewrite Hx.
    + exists lastc. by rewrite last_snoc.
Qed.

Lemma updateGraphNode_keep node pre lastc :
  children node = pre ++ [lastc] →
  Forall (fun c => open_out c = false) pre →
  open_out lastc = true →
  updateGraphNode node = Some node.
Proof.
  intros Hcs Hpre Hlast. unfold updateGraphNode.
  assert (findIndex open_out (children node) = Some (length pre)) as ->.
  { apply findIndex_Some. exists lastc. rewrite Hcs. split_and!.
    - by rewrite list_lookup_middle.
    - done.
    - intros j y Hy Hj. rewrite lookup_app_l in Hy by done.
      by eapply Forall_lookup_1 in Hpre. }
  rewrite Hcs, length_app. simpl.
  by replace (length pre + 1 - 1) with (length pre) by lia; rewrite Nat.eqb_refl.
Qed.

Lemma updateGraphNode_add node pre lastc :
  children node = pre ++ [lastc] →
  Forall (fun c => open_out c = false) (pre ++ [lastc]) →
  is_out lastc = true →
  ∃ node', updateGraphNode node = Some node' ∧ trailing_anchor node'
           ∧ length (children node') = S (length (children node)).
Proof.
  intros Hcs Hall Hlast. unfold updateGraphNode.
  assert (findIndex open_out (children node) = None) as ->.
  { apply findIndex_None. by rewrite Hcs. }
  unfold addEdgeNode. rewrite spread_id.
  assert (children node !! (length (children node) - 1) = Some lastc) as ->.
  { rewrite Hcs, length_app. simpl.
    replace (length pre + 1 - 1) with (length pre) by lia.
    by rewrite list_lookup_middle. }
  destruct (children node) as [|c0 cs] eqn:Hch.
  { by destruct pre. }
  rewrite <- Hch. eexists. split; [reflexivity|]. split.
  - apply trailing_anchor_split. eexists _, _. split; [reflexivity|]. split.
    + apply Forall_imap. intros i x Hx.
      assert (open_out x = false) as Hox.
      { rewrite Hch, Hcs in Hx. by eapply Forall_lookup_1 in Hall. }
      destruct (is_out x); [|done]. by rewrite open_out_translatedFrame.
    + unfold open_out, is_out, with_key, with_data, frames.translatedFrame.
      simpl. rewrite type_transformedByMatrix.
      unfold is_out in Hlast. by rewrite Hlast.
  - simpl. rewrite length_app, length_imap. simpl. lia.
Qed.

Lemma updateGraphNode_remove node pre x mid lastc :
  children node = pre ++ x :: mid ++ [lastc] →
  Forall (fun c => open_out c = false) pre →
  open_out x = true →
  Forall (fun c => open_out c = false) mid →
  open_out lastc = true →
  ∃ node', updateGraphNode node = Some node' ∧ trailing_anchor node'
           ∧ S (length (children node')) = length (children node).
Proof.
  intros Hcs Hpre Hx Hmid Hlast. unfold updateGraphNode.
  assert (findIndex open_out (children node) = Some (length pre)) as ->.
  { apply findIndex_Some. exists x. rewrite Hcs. split_and!.
    - by rewrite list_lookup_middle.
    - done.
    - intros j y Hy Hj. rewrite lookup_app_l in Hy by done.
      by eapply Forall_lookup_1 in Hpre. }
  assert ((length pre =? length (children node) - 1) = false) as ->.
  { apply Nat.eqb_neq. rewrite Hcs. rewrite length_app. simpl.
    rewrite length_app. simpl. lia. }
  eexists. split; [reflexivity|].
  unfold removeEdgeNode. simpl.
  assert (take (length pre) (children node) = pre) as ->.
  { by rewrite Hcs, take_app_length. }
  assert (drop (length pre + 1) (children node) = mid ++ [lastc]) as ->.
  { rewrite Hcs. clear. induction pre as [|y pre IH]; [done|]. apply IH. }
  split.
  - apply trailing_anchor_split. simpl. rewrite imap_app. simpl.
    eexists _, _. rewrite app_assoc. split; [reflexivity|]. split.
    + apply Forall_app. split.
      * apply Forall_imap. intros i y Hy.
        assert (open_out y = false) as Hoy by (by eapply Forall_lookup_1 in Hpre).
        destruct (is_out y); [|done]. by rewrite open_out_translatedFrame.
      * apply Forall_imap. intros i y Hy. rewrite open_out_translatedFrame.
        by eapply Forall_lookup_1 in Hmid.
    + by rewrite open_out_translatedFrame.
  - simpl. rewrite length_app, !length_imap, Hcs. rewrite !length_app. simpl.
    rewrite length_app. simpl. lia.
Qed.

Lemma lift_total (f : Node → Node) (k : option Z) (node : Node) :
  ∃ node1, lift (keyReducer k (fun e => Some (f e))) node = Some node1
    ∧ (node1 = node
       ∨ ∃ i c, children node !! i = Some c
                ∧ node1 = with_children node (<[i := f c]> (children node))).
Proof.
  unfold lift, keyReducer. simpl. rewrite spread_id.
  destruct (findIndex (key_is k) (children node)) as [i|] eqn:Hi.
  - apply findIndex_Some in Hi as (c & Hc & _). rewrite Hc. simpl.
    eexists. split; [reflexivity|]. right. by exists i, c.
  - eexists. split; [reflexivity|]. left. apply with_children_id.
Qed.

Lemma is_out_finalize h p e : is_out (finalize h p e) = is_out e.
Proof. by destruct e. Qed.

Lemma repair_after_edit (f : Node → Node) (node node1 : Node) :
  (∀ e, is_out (f e) = is_out e) →
  trailing_anchor node →
  (node1 = node
   ∨ ∃ i c, children node !! i = Some c
            ∧ node1 = with_children node (<[i := f c]> (children node))) →
  ∃ node2, updateGraphNode node1 = Some node2 ∧ trailing_anchor node2.
Proof.
  intros Hf Hinv Hnode1.
  apply trailing_anchor_split in Hinv as (pre & lastc & Hcs & Hpre & Hlast).
  destruct Hnode1 as [-> | (i & c & Hc & ->)].
  { exists node. split; [by eapply updateGraphNode_keep|].
    apply trailing_anchor_split. by exists pre, lastc. }
  rewrite Hcs in Hc. rewrite Hcs.
  destruct (decide (i < length pre)) as [Hi | Hi].
  - rewrite lookup_app_l in Hc by done.
    rewrite insert_app_l by done.
    pose proof (take_drop_middle pre i c Hc) as Hsplit.
    assert (Forall (fun c => open_out c = false) (take i pre)) as Hpre1.
    { by apply Forall_take. }
    assert (Forall (fun c => open_out c = false) (drop (S i) pre)) as Hpre2.
    { by apply Forall_drop. }
    assert (<[i := f c]> pre = take i pre ++ f c :: drop (S i) pre) as Hins.
    { rewrite <- Hsplit at 1.
      assert (i = length (take i pre) + 0) as Hlen.
      { rewrite length_take. lia. }
      rewrite Hlen at 1. rewrite insert_app_r. done. }
    rewrite Hins.
    destruct (open_out (f c)) eqn:Hfc.
    + destruct (updateGraphNode_remove
                  (with_children node
                     ((take i pre ++ f c :: drop (S i) pre) ++ [lastc]))
                  (take i pre) (f c) (drop (S i) pre) lastc)
        as (node2 & Hup & Hinv2 & _); try done.
      { simpl. by rewrite <- app_assoc. }
      by exists node2.
    + eexists. split.
      * eapply updateGraphNode_keep; [reflexivity| |exact Hlast].
        apply Forall_app. split; [done|]. by constructor.
      * apply trailing_anchor_split. eexists _, _. split; [reflexivity|].
        split; [|done]. apply Forall_app. split; [done|]. by constructor.
  - assert (i = length pre + 0) as ->.
    { apply lookup_lt_Some in Hc. rewrite length_app in Hc. simpl in Hc. lia. }
    rewrite lookup_app_r in Hc by lia.
    replace (length pre + 0 - length pre) with 0 in Hc by lia.
    simpl in Hc. injection Hc as <-.
    rewrite insert_app_r. simpl.
    assert (is_out lastc = true) as Hout.
    { unfold open_out in Hlast. by apply andb_true_iff in Hlast as [? _]. }
    destruct (open_out (f lastc)) eqn:Hfc.
    + eexists. split.
      * by eapply updateGraphNode_keep.
      * apply trailing_anchor_split. by eexists _, _.
    + destruct (updateGraphNode_add
                  (with_children node (pre ++ [f lastc])) pre (f lastc))
        as (node2 & Hup & Hinv2 & _); try done.
      { apply Forall_app. split; [done|]. by constructor. }
      { by rewrite Hf. }
      by exists node2.
Qed.

(** C1.  For every GraphNode that satisfies the trailing-anchor invariant,
    the drag-release finalize of the Edge Controller (the [self] mutation
    that sets or clears [linkedTo] and clears [to] on the out-edge anchor
    keyed [k], lifted to the GraphNode) followed by the repair step
    [updateGraphNode] (the [parent] mutation of the same release) yields a
    GraphNode in which exactly one out-edge-node child lacks [linkedTo], and
    that child is the last child. *)
Theorem edge_release_repair_restores_trailing_anchor
    (node : Node) (k : option Z) (s : hoverSample) :
  etype (event s) ≠ "mousemove" →
  trailing_anchor node →
  ∃ selfm parentm node1 node2,
    edge_drag s = Sink [selfm] [parentm]
    ∧ lift (keyReducer k selfm) node = Some node1
    ∧ parentm node1 = Some node2
    ∧ trailing_anchor node2.
Proof.
  intros Hrelease Hinv. unfold edge_drag.
  rewrite bool_decide_eq_false_2 by done.
  destruct (lift_total (finalize (hoveredNode s) (hposition s)) k node)
    as (node1 & Hlift & Hshape).
  destruct (repair_after_edit (finalize (hoveredNode s) (hposition s))
              node node1) as (node2 & Hup & Hinv2);
    [apply is_out_finalize | done | done |].
  by eexists _, _, node1, node2.
Qed.

Lemma edge_release_repair_restores_trailing_anchor_witness :
  ∃ selfm parentm node1 node2,
    edge_drag release_on_other = Sink [selfm] [parentm]
    ∧ lift (keyReducer (Some 0%Z) selfm) one_anchor_node = Some node1
    ∧ parentm node1 = Some node2
    ∧ trailing_anchor node2.
Proof.
  apply (edge_release_repair_restores_trailing_anchor
           one_anchor_node (Some 0%Z) release_on_other).
  - simpl. discriminate.
  - split; [reflexivity|]. eexists. split; reflexivity.
Defined.

(** ** What the two repairs do to the children *)

Lemma in_edge_not_out inE : type inE = "in-edge-node" → is_out inE = false.
Proof. intros H. unfold is_out. rewrite H. done. Qed.

(** C10.  For every GraphNode whose children are its InEdgeNode followed by
    its out-edge nodes, the two repairs that [updateGraphNode] invokes keep
    the InEdgeNode as the first child, itself unchanged (matrix included),
    move only out-edge nodes, along the x axis of the node's frame, and
    change the number of children by exactly one: [addEdgeNode] (no open
    out-edge node) adds one child at the end, an out-edge node without
    [linkedTo]; [removeEdgeNode] (first open out-edge node at [index], not
    the last child) drops the child at [index]. *)
Theorem repairs_keep_in_edge_and_shift_out_edges
    (node inE : Node) (outs : list Node) :
  children node = inE :: outs →
  type inE = "in-edge-node" →
  outs ≠ [] →
  Forall (fun c => is_out c = true) outs →
  (findIndex open_out (children node) = None →
   ∃ node' shifted newEdge,
     updateGraphNode node = addEdgeNode node
     ∧ addEdgeNode node = Some node'
     ∧ children node' = inE :: shifted ++ [newEdge]
     ∧ Forall2 (shifted_in node) outs shifted
     ∧ open_out newEdge = true
     ∧ length (children node') = S (length (children node)))
  ∧ (∀ index,
       findIndex open_out (children node) = Some index →
       index ≠ length (children node) - 1 →
       ∃ j shifted,
         index = S j
         ∧ updateGraphNode node = Some (removeEdgeNode node index)
         ∧ children (removeEdgeNode node index) = inE :: shifted
         ∧ Forall2 (shifted_in node) (delete j outs) shifted
         ∧ S (length (children (removeEdgeNode node index)))
           = length (children node)).
Proof.
  intros Hcs HinE Hne Houts. pose proof (in_edge_not_out inE HinE) as Hin.
  split.
  - intros Hnone. unfold updateGraphNode. rewrite Hnone.
    unfold addEdgeNode. rewrite spread_id.
    destruct (last_is_Some outs) as [_ Hl]. destruct (Hl Hne) as [lastc Hlast].
    assert (children node !! (length (children node) - 1) = Some lastc) as ->.
    { rewrite Hcs. simpl. rewrite Nat.sub_0_r.
      rewrite last_lookup in Hlast. destruct outs as [|o outs']; [done|].
      simpl in *. done. }
    clear Hnone. destruct (children node) as [|c0 cs] eqn:Hch; [done|].
    injection Hcs as -> ->.
    eexists _, _, _. split; [reflexivity|]. split; [reflexivity|].
    unfold with_children at 1. cbn [children]. rewrite imap_cons, Hin.
    split; [reflexivity|]. split_and!.
    + apply Forall2_imap. intros i x Hx. simpl.
      assert (is_out x = true) as -> by (by eapply Forall_lookup_1 in Houts).
      by eexists.
    + unfold open_out, is_out, with_key, with_data, frames.translatedFrame.
      simpl. rewrite type_transformedByMatrix.
      assert (is_out lastc = true) as Hlo.
      { apply last_Some in Hlast as [l' ->].
        apply Forall_app in Houts as [_ Hx]. by inversion Hx. }
      unfold is_out in Hlo. by rewrite Hlo.
    + unfold with_children. cbn [children].
      rewrite length_app. cbn [length]. rewrite length_imap. lia.
  - intros index Hidx Hnotlast.
    apply findIndex_Some in Hidx as Hidx'. destruct Hidx' as (c & Hc & Hopen & _).
    rewrite Hcs in Hc. destruct index as [|j].
    { simpl in Hc. injection Hc as <-.
      unfold open_out in Hopen. by rewrite Hin in Hopen. }
    simpl in Hc. exists j. eexists. split; [done|]. split.
    { unfold updateGraphNode. rewrite Hidx.
      by apply Nat.eqb_neq in Hnotlast as ->. }
    unfold removeEdgeNode. rewrite Hcs. simpl. rewrite Hin.
    split; [reflexivity|]. split.
    + rewrite delete_take_drop. apply Forall2_app.
      * apply Forall2_imap. intros i x Hx. simpl.
        apply lookup_take_Some in Hx as [Hx _].
        assert (is_out x = true) as -> by (by eapply Forall_lookup_1 in Houts).
        by eexists.
      * rewrite Nat.add_1_r. apply Forall2_imap. intros i x Hx. by eexists.
    + rewrite length_app, !length_imap, length_take, length_drop.
      apply lookup_lt_Some in Hc. lia.
Qed.

(** ** Selection: at most one active node, active implies selected *)

Lemma amo_fmap (f : Node → Node) cs :
  (∀ c, data (f c) = data c) →
  at_most_one_active (f <$> cs) ↔ at_most_one_active cs.
Proof.
  intros Hf. unfold at_most_one_active.
  assert (length (filter (fun c => active (data c) = true) (f <$> cs))
          = length (filter (fun c => active (data c) = true) cs)) as ->; [|done].
  induction cs as [|c cs IH]; [done|].
  rewrite fmap_cons, !filter_cons, Hf.
  destruct (decide (active (data c) = true)); simpl; by rewrite IH.
Qed.

Lemma ais_fmap (f : Node → Node) cs :
  (∀ c, data (f c) = data c) →
  active_implies_selected (f <$> cs) ↔ active_implies_selected cs.
Proof.
  intros Hf. unfold active_implies_selected. rewrite Forall_fmap.
  apply Forall_proper; [|done]. intros c. simpl. by rewrite Hf.
Qed.

Lemma inactive_amo cs :
  Forall (fun c => active (data c) = false) cs → at_most_one_active cs.
Proof.
  intros H. unfold at_most_one_active.
  assert (filter (fun c => active (data c) = true) cs = []) as ->; [|simpl; lia].
  induction H as [|c cs Hc _ IH]; [done|].
  rewrite filter_cons_False; [done|]. by rewrite Hc.
Qed.

Lemma inactive_ais cs :
  Forall (fun c => active (data c) = false) cs → active_implies_selected cs.
Proof.
  unfold active_implies_selected. intros H.
  eapply Forall_impl; [exact H|]. simpl. intros c -> ?. done.
Qed.

Lemma inactive_fmap (f : Node → Node) cs :
  (∀ c, active (data (f c)) = false) →
  Forall (fun c => active (data c) = false) (f <$> cs).
Proof. intros Hf. rewrite Forall_fmap. by apply Forall_true. Qed.

Lemma amo_insert cs i c c' :
  cs !! i = Some c →
  (active (data c') = true → active (data c) = true) →
  at_most_one_active cs → at_most_one_active (<[i := c']> cs).
Proof.
  intros Hc Himp. unfold at_most_one_active.
  rewrite <- (take_drop_middle cs i c Hc) at 1.
  assert (<[i := c']> cs = take i cs ++ c' :: drop (S i) cs) as ->.
  { rewrite <- (take_drop_middle cs i c Hc) at 1.
    assert (i = length (take i cs) + 0) as Hlen.
    { rewrite length_take. apply lookup_lt_Some in Hc. lia. }
    rewrite Hlen at 1. by rewrite insert_app_r. }
  rewrite !filter_app, !length_app, !filter_cons.
  destruct (decide (active (data c') = true)) as [Ha|Ha].
  - rewrite decide_True by auto. done.
  - destruct (decide (active (data c) = true)); simpl; lia.
Qed.

Lemma ais_insert cs i c' :
  (active (data c') = true → selected (data c') = true) →
  active_implies_selected cs → active_implies_selected (<[i := c']> cs).
Proof. intros Hc' H. by apply Forall_insert. Qed.

Lemma moveTop_cases k p :
  (findIndex (key_is k) (children p) = None ∧ moveTop k p = p)
  ∨ ∃ i c, children p !! i = Some c ∧ key_is k c = true
           ∧ moveTop k p
             = with_children p (c :: take i (children p)
                                  ++ drop (S i) (children p)).
Proof.
  unfold moveTop.
  destruct (findIndex (key_is k) (children p)) as [i|] eqn:Hi; [|by left].
  right. apply findIndex_Some in Hi as (c & Hc & Hk & _).
  exists i, c. rewrite Hc, spread_id. done.
Qed.

Lemma promote_cases others k p :
  promote others k p = p
  ∨ ∃ c rest, children (promote others k p) = selectNode c :: map others rest.
Proof.
  unfold promote.
  destruct (moveTop_cases k p) as [[Hnone ->] | (i & c & Hc & Hk & ->)].
  - destruct (children p) as [|c0 rest] eqn:Hcs; [by left|].
    apply findIndex_None in Hnone. inversion Hnone as [|? ? Hc0 _]; subst.
    rewrite Hc0. by left.
  - right. simpl. rewrite Hk. by eexists _, _.
Qed.

Lemma promote_found others k p i c :
  children p !! i = Some c → key_is k c = true →
  ∃ c' rest, children (promote others k p) = selectNode c' :: map others rest.
Proof.
  intros Hc Hk. unfold promote.
  destruct (moveTop_cases k p) as [[Hnone _] | (j & c' & Hc' & Hk' & ->)].
  - apply findIndex_None in Hnone.
    eapply Forall_lookup_1 in Hnone; [|exact Hc]. simpl in Hnone. congruence.
  - simpl. rewrite Hk'. by eexists _, _.
Qed.

Lemma promoted_inv (others : Node → Node) c rest p :
  (∀ c, active (data (others c)) = false) →
  children p = selectNode c :: map others rest →
  selection_inv p.
Proof.
  intros Hothers Hcs. unfold selection_inv. rewrite Hcs. split.
  - unfold at_most_one_active. rewrite filter_cons_True by done. simpl.
    assert (filter (fun c => active (data c) = true) (map others rest) = []) as ->.
    { clear Hcs. induction rest as [|x rest IH]; [done|]. simpl.
      rewrite filter_cons_False; [done|]. by rewrite Hothers. }
    simpl. lia.
  - constructor; [done|].
    apply inactive_ais. by apply (inactive_fmap others).
Qed.

Lemma promote_inv others k p :
  (∀ c, active (data (others c)) = false) →
  selection_inv p → selection_inv (promote others k p).
Proof.
  intros Hothers Hinv.
  destruct (promote_cases others k p) as [-> | (c & rest & Hcs)]; [done|].
  by eapply promoted_inv.
Qed.

Lemma lift_cases (r : reducer) k p p' :
  lift (keyReducer k r) p = Some p' →
  (findIndex (key_is k) (children p) = None ∧ p' = p)
  ∨ ∃ i c c', children p !! i = Some c ∧ key_is k c = true ∧ r c = Some c'
              ∧ p' = with_children p (<[i := c']> (children p)).
Proof.
  unfold lift, keyReducer. simpl. rewrite spread_id.
  destruct (findIndex (key_is k) (children p)) as [i|] eqn:Hi.
  - apply findIndex_Some in Hi as (c & Hc & Hk & _). rewrite Hc. simpl.
    destruct (r c) as [c'|] eqn:Hr; [|done]. simpl. intros [= <-].
    right. by exists i, c, c'.
  - intros [= <-]. left. by rewrite with_children_id.
Qed.

Lemma data_lift kr n n' : lift kr n = Some n' → data n' = data n.
Proof.
  unfold lift. rewrite spread_id.
  destruct (findIndex _ _) as [i|]; [|by intros [= <-]].
  destruct (children n !! i) as [c|]; [|by intros [= <-]].
  simpl. destruct (kreducer kr c); simpl; [|done]. by intros [= <-].
Qed.

Lemma data_updateGraphNode n n' : updateGraphNode n = Some n' → data n' = data n.
Proof.
  unfold updateGraphNode.
  destruct (findIndex open_out (children n)) as [i|].
  - destruct (i =? _); by intros [= <-].
  - unfold addEdgeNode. rewrite spread_id.
    destruct (children n !! _); [|done].
    destruct (children n); [done|]. by intros [= <-].
Qed.

Lemma node_reducer_flags m c c' :
  m ≠ SelectNode →
  node_reducer m c = Some c' →
  active (data c') = false ∨ data c' = data c.
Proof.
  intros Hm. destruct m; simpl; try done.
  - intros [= <-]. by left.
  - intros H. right. by eapply data_lift.
  - intros H. right. by eapply data_lift.
  - intros H. right. by eapply data_updateGraphNode.
Qed.

Lemma on_node_inv k m p p' :
  m ≠ SelectNode →
  lift (keyReducer k (node_reducer m)) p = Some p' →
  selection_inv p → selection_inv p'.
Proof.
  intros Hm Hlift [Hamo Hais].
  apply lift_cases in Hlift as [[_ ->] | (i & c & c' & Hc & _ & Hr & ->)]; [done|].
  destruct (node_reducer_flags m c c' Hm Hr) as [Hf | Hf].
  - split; simpl.
    + eapply amo_insert; [done| |done]. congruence.
    + apply ais_insert; [congruence | done].
  - split; simpl.
    + eapply amo_insert; [done| |done]. by rewrite Hf.
    + apply ais_insert; [|done]. rewrite Hf.
      by eapply Forall_lookup_1 in Hais.
Qed.

Lemma data_translatedFrame n d r : data (frames.translatedFrame n d r) = data n.
Proof. apply data_transformedByMatrix. Qed.

Lemma changeZoom_inv e p : selection_inv p → selection_inv (changeZoom e p).
Proof.
  intros Hinv. unfold changeZoom.
  destruct (_ && _); [done|]. destruct (_ && _); [done|].
  unfold frames.scaledFrame, selection_inv.
  rewrite children_transformedByMatrix.
  destruct Hinv as [Hamo Hais]. split.
  - apply amo_fmap; [|done]. intros c. apply data_transformedByMatrix.
  - apply ais_fmap; [|done]. intros c. apply data_transformedByMatrix.
Qed.

Lemma deselected_inv p cs :
  children p = map deselectNode cs → selection_inv p.
Proof.
  intros H. unfold selection_inv. rewrite H. split.
  - by apply inactive_amo, (inactive_fmap deselectNode).
  - by apply inactive_ais, (inactive_fmap deselectNode).
Qed.

Lemma dragNodes_inv e p : selection_inv p → selection_inv (dragNodes e p).
Proof.
  intros [Hamo Hais]. unfold dragNodes. rewrite spread_id. split; simpl.
  - apply amo_fmap; [|done]. intros c.
    destruct (selected (data c)); [apply data_translatedFrame | done].
  - apply ais_fmap; [|done]. intros c.
    destruct (selected (data c)); [apply data_translatedFrame | done].
Qed.

Lemma single_inv m p p' :
  (∀ k, m ≠ OnNode k SelectNode) →
  plane_reducer m p = Some p' →
  selection_inv p → selection_inv p'.
Proof.
  intros Hm Hred Hinv. destruct m; simpl in Hred.
  - injection Hred as <-. by apply changeZoom_inv.
  - injection Hred as <-. by eapply deselected_inv.
  - injection Hred as <-. by eapply deselected_inv.
  - eapply on_node_inv; [|exact Hred|exact Hinv].
    intros ->. by apply (Hm nodeKey).
  - injection Hred as <-. by apply promote_inv.
  - injection Hred as <-. by apply promote_inv.
  - injection Hred as <-. by apply dragNodes_inv.
Qed.

Lemma node_reducer_selected m c c' :
  node_reducer m c = Some c' →
  (active (data c') = true → selected (data c') = true) ∨ data c' = data c.
Proof.
  destruct m; simpl.
  - intros [= <-]. by left.
  - intros [= <-]. by left.
  - intros H. right. by eapply data_lift.
  - intros H. right. by eapply data_lift.
  - intros H. right. by eapply data_updateGraphNode.
Qed.

Lemma promote_ais others k p :
  (∀ c, active (data (others c)) = false) →
  active_implies_selected (children p) →
  active_implies_selected (children (promote others k p)).
Proof.
  intros Hothers Hais.
  destruct (promote_cases others k p) as [-> | (c & rest & Hcs)]; [done|].
  by eapply promoted_inv.
Qed.

Lemma step_ais p p' :
  step p p' →
  active_implies_selected (children p) → active_implies_selected (children p').
Proof.
  intros [m Hred] Hais. destruct m; simpl in Hred.
  - injection Hred as <-. unfold changeZoom.
    destruct (_ && _); [done|]. destruct (_ && _); [done|].
    unfold frames.scaledFrame. rewrite children_transformedByMatrix.
    apply ais_fmap; [|done]. intros c. apply data_transformedByMatrix.
  - injection Hred as <-. by apply inactive_ais, (inactive_fmap deselectNode).
  - injection Hred as <-. by apply inactive_ais, (inactive_fmap deselectNode).
  - apply lift_cases in Hred as [[_ ->] | (i & c & c' & Hc & _ & Hr & ->)]; [done|].
    simpl. destruct (node_reducer_selected m c c' Hr) as [Hf | Hf].
    + by apply ais_insert.
    + apply ais_insert; [|done]. rewrite Hf. by eapply Forall_lookup_1 in Hais.
  - injection Hred as <-. by apply promote_ais.
  - injection Hred as <-. by apply promote_ais.
  - injection Hred as <-. unfold dragNodes. rewrite spread_id. simpl.
    apply ais_fmap; [|done]. intros c.
    destruct (selected (data c)); [apply data_translatedFrame | done].
Qed.

Lemma select_then_makeActive_inv k p p1 :
  lift (keyReducer k (fun n => Some (selectNode n))) p = Some p1 →
  selection_inv p → selection_inv (makeActive k p1).
Proof.
  intros Hlift Hinv.
  apply lift_cases in Hlift as [[_ ->] | (i & c & c' & Hc & Hk & Hr & ->)].
  { by apply promote_inv. }
  injection Hr as <-.
  destruct (promote_found deactivate k
              (with_children p (<[i := selectNode c]> (children p)))
              i (selectNode c)) as (c' & rest & Hcs).
  - simpl. apply list_lookup_insert_eq. by eapply lookup_lt_Some.
  - by destruct c.
  - by eapply (promoted_inv deactivate).
Qed.

Lemma emission_step_inv p p' :
  emission_step p p' → selection_inv p → selection_inv p'.
Proof.
  intros [state Hrun | state only Hrun | m Hm Hred] Hinv.
  - unfold shiftclick, emitted, run in Hrun.
    destruct (active (data state)); simpl in Hrun.
    + by eapply (on_node_inv (key state) DeselectNode).
    + destruct (lift _ p) as [p1|] eqn:Hlift; [|done]. simpl in Hrun.
      injection Hrun as <-. by eapply select_then_makeActive_inv.
  - unfold click, emitted, run in Hrun.
    destruct (active (data state)); [destruct only|]; simpl in Hrun.
    + by eapply (on_node_inv (key state) DeselectNode).
    + injection Hrun as <-. by apply promote_inv.
    + injection Hrun as <-. by apply promote_inv.
  - by eapply single_inv.
Qed.

(** C5 (as the code has it).  From a seed in which at most one GraphNode is
    active and every active GraphNode is selected: in every state reached by
    applying the emitted mutations one at a time, every active GraphNode is
    selected; and in every state reached by applying whole emissions (the
    [selectNode] of a shift-click together with the [makeActive] sent along
    with it, every other mutation alone), at most one GraphNode is active
    as well. *)
Theorem selection_discipline (seed p : Node) :
  selection_inv seed →
  (rtc step seed p → active_implies_selected (children p))
  ∧ (rtc emission_step seed p → selection_inv p).
Proof.
  intros Hinv. split; intros Hreach.
  - destruct Hinv as [_ Hais].
    induction Hreach as [|x y z Hxy _ IH]; [done|].
    apply IH. by eapply step_ais.
  - induction Hreach as [|x y z Hxy _ IH]; [done|].
    apply IH. by eapply emission_step_inv.
Qed.

Lemma two_node_plane_inv : selection_inv two_node_plane.
Proof.
  split.
  - unfold at_most_one_active, two_node_plane. cbn [children].
    rewrite filter_cons_True by done.
    rewrite filter_cons_False by done. simpl. lia.
  - unfold two_node_plane. cbn [children]. repeat constructor. done.
Qed.

Lemma selection_discipline_witness :
  active_implies_selected (children two_node_plane_selected)
  ∧ selection_inv two_node_plane_promoted.
Proof.
  split.
  - apply (proj1 (selection_discipline two_node_plane two_node_plane_selected
                    two_node_plane_inv)).
    apply rtc_once. unfold step.
    exists (OnNode (Some 1%Z) SelectNode). reflexivity.
  - apply (proj2 (selection_discipline two_node_plane two_node_plane_promoted
                    two_node_plane_inv)).
    apply rtc_once.
    apply (emission_shiftclick _ _
             (mkNode "graph-node" (Some 1%Z) math.identity
                (plain_data false false) [])).
    reflexivity.
Defined.

(** The lone [selectNode] of a shift-click, applied to a Plane that has an
    active node already, leaves two active nodes. *)
Lemma select_alone_leaves_two_active :
  selection_inv two_node_plane
  ∧ rtc step two_node_plane two_node_plane_selected
  ∧ ¬ at_most_one_active (children two_node_plane_selected).
Proof.
  split_and!.
  - apply two_node_plane_inv.
  - apply rtc_once. unfold step.
      exists (OnNode (Some 1%Z) SelectNode). reflexivity.
  - unfold at_most_one_active, two_node_plane_selected. cbn [children].
    rewrite !filter_cons_True by done. simpl. lia.
Qed.

Lemma repairs_keep_in_edge_and_shift_out_edges_witness :
  ∃ node' shifted newEdge,
    updateGraphNode linked_node = addEdgeNode linked_node
    ∧ addEdgeNode linked_node = Some node'
    ∧ children node' = linked_in_edge :: shifted ++ [newEdge]
    ∧ Forall2 (shifted_in linked_node) [linked_out_edge] shifted
    ∧ open_out newEdge = true
    ∧ length (children node') = S (length (children linked_node)).
Proof.
  refine (proj1 (repairs_keep_in_edge_and_shift_out_edges
                   linked_node linked_in_edge [linked_out_edge] _ _ _ _) _).
  - reflexivity.
  - reflexivity.
  - discriminate.
  - repeat constructor.
  - reflexivity.
Defined.

(** ** Matrices of the pivots and of the Window *)

Ltac mat_entries :=
  unfold frames.scaling, frames.translation, window_matrix,
         math.inv, math.det, math.identity;
  cbn [m00 m01 m02 m10 m11 m12 m20 m21 m22 fst snd];
  unfold math.multiply;
  cbn [m00 m01 m02 m10 m11 m12 m20 m21 m22 fst snd].

Lemma multiply_entries (a b : matrix) :
  math.multiply a b
  = Mat (m00 a * m00 b + m01 a * m10 b + m02 a * m20 b)
        (m00 a * m01 b + m01 a * m11 b + m02 a * m21 b)
        (m00 a * m02 b + m01 a * m12 b + m02 a * m22 b)
        (m10 a * m00 b + m11 a * m10 b + m12 a * m20 b)
        (m10 a * m01 b + m11 a * m11 b + m12 a * m21 b)
        (m10 a * m02 b + m11 a * m12 b + m12 a * m22 b)
        (m20 a * m00 b + m21 a * m10 b + m22 a * m20 b)
        (m20 a * m01 b + m21 a * m11 b + m22 a * m21 b)
        (m20 a * m02 b + m21 a * m12 b + m22 a * m22 b).
Proof. reflexivity. Qed.

(** Scaling about the origin of a pointer or centre frame *)
Lemma scaling_about_pivot (sx sy a b : R) :
  let pivot := Mat 1 0 a
                   0 (-1) b
                   0 0 1 in
  math.multiply pivot (math.multiply (frames.scaling (sx, sy)) (math.inv pivot))
  = Mat sx 0 (a * (1 - sx))
        0 sy (b * (1 - sy))
        0 0 1.
Proof. intros pivot. unfold pivot. mat_entries. f_equal; field. Qed.


(** ** Zoom ([changeZoom]) *)

Lemma vec_to_canvas (v : R * R) (m : matrix) :
  frames.vecFrameTrans v m math.identity
  = (m00 m * fst v + m01 m * snd v, m10 m * fst v + m11 m * snd v)%R.
Proof.
  unfold frames.vecFrameTrans. mat_entries. f_equal; field.
Qed.

Lemma norm_scaled (s x y : R) :
  (0 <= s)%R → math.norm (s * x, s * y)%R = (s * math.norm (x, y))%R.
Proof.
  intros Hs. unfold math.norm. cbn [fst snd].
  replace (s * x * (s * x) + s * y * (s * y))%R
    with ((s * s) * (x * x + y * y))%R by ring.
  rewrite sqrt_mult_alt by nra. by rewrite sqrt_square.
Qed.

Lemma unit_diagonal_scaledFrame plane (s a b : R) :
  affine (worldMatrix plane) → (0 <= s)%R →
  unit_diagonal_length
    (frames.scaledFrame plane (s * 1, s * 1)%R
       (Mat 1 0 a
            0 (-1) b
            0 0 1))
  = (s * unit_diagonal_length plane)%R.
Proof.
  intros [H20 H21] Hs. unfold unit_diagonal_length, frames.scaledFrame.
  rewrite worldMatrix_transformedByMatrix, !vec_to_canvas.
  rewrite <- norm_scaled by done. f_equal.
  rewrite scaling_about_pivot, multiply_entries.
  cbn [m00 m01 m02 m10 m11 m12 m20 m21 m22 fst snd].
  rewrite H20, H21. f_equal; ring.
Qed.

Lemma Rltb_true x y : (x < y)%R → Rltb x y = true.
Proof. intros H. unfold Rltb. by destruct (Rlt_dec x y). Qed.

Lemma Rltb_false x y : ¬ (x < y)%R → Rltb x y = false.
Proof. intros H. unfold Rltb. by destruct (Rlt_dec x y). Qed.

Lemma changeZoom_blocked (e : MouseEvent) (plane : Node) :
  ((zoomScale plane < 5 ∧ 0 < deltaY e) ∨ (10 < zoomScale plane ∧ deltaY e < 0))%R →
  changeZoom e plane = plane.
Proof.
  intros H. unfold changeZoom.
  fold (unit_diagonal_length plane). fold (zoomScale plane).
  destruct H as [[H1 H2] | [H1 H2]].
  - by rewrite (Rltb_true _ _ H1), (Rltb_true _ _ H2).
  - rewrite (Rltb_true _ _ H1), (Rltb_true _ _ H2).
    by destruct (_ && _).
Qed.

Lemma changeZoom_free (e : MouseEvent) (plane : Node) :
  ¬ (zoomScale plane < 5 ∧ 0 < deltaY e)%R →
  ¬ (10 < zoomScale plane ∧ deltaY e < 0)%R →
  changeZoom e plane
  = frames.scaledFrame plane
      (math.pow 1.1 (- deltaY e) * 1, math.pow 1.1 (- deltaY e) * 1)%R
      (Mat 1 0 (fst (position e))
           0 (-1) (snd (position e))
           0 0 1).
Proof.
  intros H1 H2. unfold changeZoom.
  fold (unit_diagonal_length plane). fold (zoomScale plane).
  assert (Rltb (zoomScale plane) 5 && Rltb 0 (deltaY e) = false) as ->.
  { apply andb_false_iff. unfold Rltb.
    destruct (Rlt_dec (zoomScale plane) 5); [|by left].
    destruct (Rlt_dec 0 (deltaY e)); [|by right]. tauto. }
  assert (Rltb 10 (zoomScale plane) && Rltb (deltaY e) 0 = false) as ->.
  { apply andb_false_iff. unfold Rltb.
    destruct (Rlt_dec 10 (zoomScale plane)); [|by left].
    destruct (Rlt_dec (deltaY e) 0); [|by right]. tauto. }
  reflexivity.
Qed.

Lemma changeZoom_cases (e : MouseEvent) (plane : Node) :
  affine (worldMatrix plane) →
  (((zoomScale plane < 5 ∧ 0 < deltaY e) ∨ (10 < zoomScale plane ∧ deltaY e < 0))%R
   ∧ changeZoom e plane = plane)
  ∨ (¬ (zoomScale plane < 5 ∧ 0 < deltaY e)%R
     ∧ ¬ (10 < zoomScale plane ∧ deltaY e < 0)%R
     ∧ unit_diagonal_length (changeZoom e plane)
       = (Rpower 1.1 (- deltaY e) * unit_diagonal_length plane)%R).
Proof.
  intros Haff.
  assert (((zoomScale plane < 5 ∧ 0 < deltaY e)
           ∨ (10 < zoomScale plane ∧ deltaY e < 0))%R
          ∨ ¬ ((zoomScale plane < 5 ∧ 0 < deltaY e)
               ∨ (10 < zoomScale plane ∧ deltaY e < 0))%R) as [H | H].
  { destruct (Rlt_dec (zoomScale plane) 5), (Rlt_dec 0 (deltaY e)),
      (Rlt_dec 10 (zoomScale plane)), (Rlt_dec (deltaY e) 0); tauto. }
  - left. split; [done|]. by apply changeZoom_blocked.
  - right. assert (¬ (zoomScale plane < 5 ∧ 0 < deltaY e)%R) as H1 by tauto.
    assert (¬ (10 < zoomScale plane ∧ deltaY e < 0)%R) as H2 by tauto.
    split_and!; [done..|].
    rewrite changeZoom_free by done.
    apply unit_diagonal_scaledFrame; [done|]. left. apply exp_pos.
Qed.

(** C4 (as the code has it).  For every Plane with an affine matrix and
    every wheel event, [changeZoom] either returns the Plane as it is, which
    it does exactly when its measure [zoomScale] is below 5 while
    [deltaY > 0] or above 10 while [deltaY < 0], or multiplies the on-screen
    length of the unit diagonal by [1.1 ^ (- deltaY)]; the length that
    results is not clamped. *)
Theorem changeZoom_blocks_or_scales (e : MouseEvent) (plane : Node) :
  affine (worldMatrix plane) →
  (((zoomScale plane < 5 ∧ 0 < deltaY e) ∨ (10 < zoomScale plane ∧ deltaY e < 0))%R
   ∧ changeZoom e plane = plane)
  ∨ (¬ (zoomScale plane < 5 ∧ 0 < deltaY e)%R
     ∧ ¬ (10 < zoomScale plane ∧ deltaY e < 0)%R
     ∧ unit_diagonal_length (changeZoom e plane)
       = (Rpower 1.1 (- deltaY e) * unit_diagonal_length plane)%R).
Proof. apply changeZoom_cases. Qed.

Lemma plane_8px_affine : affine (worldMatrix plane_8px).
Proof. split; reflexivity. Qed.

Lemma changeZoom_blocks_or_scales_witness :
  (((zoomScale plane_8px < 5 ∧ 0 < deltaY wheel_in)
    ∨ (10 < zoomScale plane_8px ∧ deltaY wheel_in < 0))%R
   ∧ changeZoom wheel_in plane_8px = plane_8px)
  ∨ (¬ (zoomScale plane_8px < 5 ∧ 0 < deltaY wheel_in)%R
     ∧ ¬ (10 < zoomScale plane_8px ∧ deltaY wheel_in < 0)%R
     ∧ unit_diagonal_length (changeZoom wheel_in plane_8px)
       = (Rpower 1.1 (- deltaY wheel_in) * unit_diagonal_length plane_8px)%R).
Proof.
  apply (changeZoom_blocks_or_scales wheel_in plane_8px).
  split; reflexivity.
Defined.

Lemma plane_8px_length : unit_diagonal_length plane_8px = 8%R.
Proof.
  unfold unit_diagonal_length. rewrite vec_to_canvas.
  unfold math.norm, plane_8px.
  cbn [worldMatrix m00 m01 m02 m10 m11 m12 m20 m21 m22 fst snd].
  replace ((24 / 5 * 1 + 0 * 1) * (24 / 5 * 1 + 0 * 1)
           + (0 * 1 + - 32 / 5 * 1) * (0 * 1 + - 32 / 5 * 1))%R
    with (8 * 8)%R by field.
  apply sqrt_square. lra.
Qed.

(** A Plane whose unit diagonal is 8 pixels long, zoomed by a wheel event
    with [deltaY = -3]: the unit diagonal becomes longer than 10 pixels. *)
Lemma changeZoom_leaves_the_range :
  (5 <= unit_diagonal_length plane_8px <= 10)%R
  ∧ (10 < unit_diagonal_length (changeZoom wheel_in plane_8px))%R.
Proof.
  split; [rewrite plane_8px_length; lra|].
  destruct (changeZoom_cases wheel_in plane_8px plane_8px_affine)
    as [[[[_ H] | [H _]] _] | (_ & _ & ->)].
  - unfold wheel_in in H. cbn [deltaY] in H. lra.
  - unfold zoomScale in H. rewrite plane_8px_length in H.
    assert (sqrt 8 <= sqrt (10 * 10))%R as Hle by (apply sqrt_le_1; lra).
    rewrite sqrt_square in Hle by lra. lra.
  - rewrite plane_8px_length. unfold wheel_in. cbn [deltaY].
    replace (- -3)%R with (INR 3) by (cbn [INR]; lra).
    rewrite Rpower_pow by lra. cbn [pow]. lra.
Qed.

(** ** Resize ([resizeState]) *)









(** ** The store view: in-place updates and raised exceptions *)

Lemma bind_always_raises {A B} (m : Store.M A) (k : A → Store.M B) σ :
  (∀ a σ1, ∃ e σ2, k a σ1 = (Store.Raise e, σ2)) →
  ∃ e σ', (m ≫= k) σ = (Store.Raise e, σ').
Proof.
  intros Hk. unfold mbind, Store.M_bind, Store.bind.
  destruct (m σ) as [[a|e] σ1]; [apply Hk | by eexists _, _].
Qed.

Ltac always_raises :=
  lazymatch goal with
  | |- ∃ e σ', (Store.identifier _ ≫= _) _ = _ => by eexists _, _
  | |- ∃ e σ', (_ ≫= _) _ = _ =>
      apply bind_always_raises; intros ? ?; always_raises
  end.

Lemma deleteSelectedNodes_always_raises (tree : Store.val) (σ : Store.store) :
  ∃ e σ', Store.deleteSelectedNodes tree σ = (Store.Raise e, σ').
Proof. unfold Store.deleteSelectedNodes. always_raises. Qed.

Lemma appendNode_always_raises (tree : Store.val) (σ : Store.store) :
  ∃ e σ', Store.appendNode tree σ = (Store.Raise e, σ').
Proof. unfold Store.appendNode. always_raises. Qed.

Lemma bind_ok {A B} (m : Store.M A) (k : A → Store.M B) σ a σ1 :
  m σ = (Store.Ok a, σ1) → (m ≫= k) σ = k a σ1.
Proof. intros H. unfold mbind, Store.M_bind, Store.bind. by rewrite H. Qed.

Lemma deref_obj σ l o :
  Store.objs σ !! l = Some o → Store.deref l σ = (Store.Ok o, σ).
Proof. intros H. unfold Store.deref. by rewrite H. Qed.

Lemma get_obj σ l props f :
  Store.objs σ !! l = Some (Store.OObj props) →
  Store.get (Store.VRef l) f σ
  = (Store.Ok (default Store.VUndef (props !! f)), σ).
Proof.
  intros H. unfold Store.get. by rewrite (bind_ok _ _ _ _ _ (deref_obj _ _ _ H)).
Qed.

Lemma set_obj σ l props f x :
  Store.objs σ !! l = Some (Store.OObj props) →
  Store.set (Store.VRef l) f x σ
  = (Store.Ok (),
     Store.mkStore (<[l := Store.OObj (<[f := x]> props)]> (Store.objs σ))
                   (Store.next σ)).
Proof.
  intros H. unfold Store.set. by rewrite (bind_ok _ _ _ _ _ (deref_obj _ _ _ H)).
Qed.

Lemma spread_obj σ l props :
  Store.objs σ !! l = Some (Store.OObj props) →
  Store.spread (Store.VRef l) σ
  = (Store.Ok (Store.VRef (Store.next σ)),
     Store.mkStore (<[Store.next σ := Store.OObj props]> (Store.objs σ))
                   (S (Store.next σ))).
Proof.
  intros H. unfold Store.spread, Store.own_props.
  erewrite bind_ok; [reflexivity|].
  by rewrite (bind_ok _ _ _ _ _ (deref_obj _ _ _ H)).
Qed.

Lemma selectNode_writes_through (σ : Store.store) (l d : Store.loc)
    (props dprops : gmap string Store.val) :
  Store.objs σ !! l = Some (Store.OObj props) →
  props !! "data" = Some (Store.VRef d) →
  Store.objs σ !! d = Some (Store.OObj dprops) →
  d ≠ Store.next σ →
  ∃ σ',
    Store.selectNode (Store.VRef l) σ = (Store.Ok (Store.VRef (Store.next σ)), σ')
    ∧ Store.objs σ' !! Store.next σ = Some (Store.OObj props)
    ∧ Store.objs σ' !! d
      = Some (Store.OObj (<["active" := Store.VBool true]>
                            (<["selected" := Store.VBool true]> dprops))).
Proof.
  intros Hl Hdata Hd Hfresh. unfold Store.selectNode.
  rewrite (bind_ok _ _ _ _ _ (spread_obj _ _ _ Hl)).
  erewrite bind_ok; [|apply get_obj; cbn [Store.objs]; apply lookup_insert_eq].
  rewrite Hdata. cbn [default].
  erewrite bind_ok;
    [|apply set_obj; cbn [Store.objs]; by rewrite lookup_insert_ne].
  erewrite bind_ok;
    [|apply get_obj; cbn [Store.objs];
      by rewrite lookup_insert_ne, lookup_insert_eq].
  rewrite Hdata. cbn [default].
  erewrite bind_ok; [|apply set_obj; cbn [Store.objs]; apply lookup_insert_eq].
  eexists. split; [reflexivity|]. cbn [Store.objs]. split.
  - by rewrite !lookup_insert_ne, lookup_insert_eq by done.
  - by rewrite lookup_insert_eq.
Qed.

(** C6 (the code on an idle GraphNode).  [selectNode] returns a new node
    object, but the new object shares the [data] object of its input and
    the two flags are stored in that shared object: after the call the
    [data] of the input node reads [selected = true] and [active = true],
    where it read [false] before. *)
Theorem selectNode_updates_its_input_in_place :
  let r := Store.selectNode (Store.VRef 0) idle_node_store in
  fst (Store.get (Store.VRef 0) "data" idle_node_store) = Store.Ok (Store.VRef 1)
  ∧ fst (Store.get (Store.VRef 1) "selected" idle_node_store)
    = Store.Ok (Store.VBool false)
  ∧ fst (Store.get (Store.VRef 1) "active" idle_node_store)
    = Store.Ok (Store.VBool false)
  ∧ fst r = Store.Ok (Store.VRef 3)
  ∧ fst (Store.get (Store.VRef 3) "data" (snd r)) = Store.Ok (Store.VRef 1)
  ∧ fst (Store.get (Store.VRef 0) "data" (snd r)) = Store.Ok (Store.VRef 1)
  ∧ fst (Store.get (Store.VRef 1) "selected" (snd r))
    = Store.Ok (Store.VBool true)
  ∧ fst (Store.get (Store.VRef 1) "active" (snd r))
    = Store.Ok (Store.VBool true).
Proof. repeat split; reflexivity. Qed.

(** C2 (the code on every tree, and on a scene with a selected and an
    unselected GraphNode).  [deleteSelectedNodes] never returns a tree: the
    call always ends in a raised exception, [ReferenceError] on [height] for
    a well-formed scene.  Before raising it has replaced the [children] of
    the input Plane, in place, by the GraphNodes that _are_ selected: the
    selected node is kept and the unselected one is dropped. *)
Theorem deleteSelectedNodes_raises_and_keeps_selected :
  (∀ tree σ, ∃ e σ', Store.deleteSelectedNodes tree σ = (Store.Raise e, σ'))
  ∧ let r := Store.deleteSelectedNodes (Store.VRef 0) two_node_scene in
    fst (Store.get (Store.VRef 4) "children" two_node_scene)
    = Store.Ok (Store.VRef 5)
    ∧ fst (Store.elements (Store.VRef 5) two_node_scene)
      = Store.Ok [Store.VRef 6; Store.VRef 8]
    ∧ fst (Store.is_selected (Store.VRef 6) two_node_scene) = Store.Ok true
    ∧ fst (Store.is_selected (Store.VRef 8) two_node_scene) = Store.Ok false
    ∧ fst r = Store.Raise (Store.ReferenceError "height")
    ∧ fst (Store.get (Store.VRef 4) "children" (snd r))
      = Store.Ok (Store.VRef 10)
    ∧ fst (Store.elements (Store.VRef 10) (snd r)) = Store.Ok [Store.VRef 6].
Proof.
  split; [apply deleteSelectedNodes_always_raises|].
  repeat split; reflexivity.
Qed.

(** C3 (the code on every tree, and on a scene with an empty Plane).
    [appendNode] never returns a tree: the call always ends in a raised
    exception, [ReferenceError] on [deselectBox] for a well-formed scene,
    the empty Plane included; the Plane of the input still has no
    GraphNode afterwards. *)
Theorem appendNode_raises_on_deselectBox :
  (∀ tree σ, ∃ e σ', Store.appendNode tree σ = (Store.Raise e, σ'))
  ∧ let r := Store.appendNode (Store.VRef 0) empty_scene in
    fst (Store.elements (Store.VRef 5) empty_scene) = Store.Ok []
    ∧ fst r = Store.Raise (Store.ReferenceError "deselectBox")
    ∧ fst (Store.get (Store.VRef 4) "children" (snd r))
      = Store.Ok (Store.VRef 5)
    ∧ fst (Store.elements (Store.VRef 5) (snd r)) = Store.Ok [].
Proof.
  split; [apply appendNode_always_raises|].
  repeat split; reflexivity.
Qed.

(** * Further properties of the code *)

(** ** Translations on the canvas *)

(** A translation expressed in the canvas frame is the translation itself *)
Lemma translation_in_canvas (d : R * R) :
  math.multiply math.identity
    (math.multiply (frames.translation d) (math.inv math.identity))
  = frames.translation d.
Proof. mat_entries. f_equal; field. Qed.

(** ** Moving nodes ([movedNode], [dragNodes]) *)

Lemma movedNode_translation (n : Node) (dx dy : Z) :
  movedNode n dx dy
  = frames.transformedByMatrix (frames.translation (IZR dx, IZR dy)) n.
Proof.
  unfold movedNode, frames.translatedFrame. by rewrite translation_in_canvas.
Qed.

(** X1.  [dragNodes] moves exactly the selected children: an unselected
    child is returned as it is; a selected child keeps its tag, key and
    data, and its matrix is the old one composed with the translation by
    [(movementX, movementY)] on the canvas; the number and the order of the
    children and the parent's own fields do not change. *)
Theorem dragNodes_moves_the_selected (e : MouseEvent) (parent : Node) :
  type (dragNodes e parent) = type parent
  ∧ key (dragNodes e parent) = key parent
  ∧ worldMatrix (dragNodes e parent) = worldMatrix parent
  ∧ data (dragNodes e parent) = data parent
  ∧ Forall2
      (fun c c' =>
         if selected (data c)
         then type c' = type c ∧ key c' = key c ∧ data c' = data c
              ∧ worldMatrix c'
                = math.multiply
                    (frames.translation (IZR (movementX e), IZR (movementY e)))
                    (worldMatrix c)
         else c' = c)
      (children parent) (children (dragNodes e parent)).
Proof.
  unfold dragNodes. rewrite spread_id. cbn [type key worldMatrix data children].
  split_and!; try done.
  apply Forall2_fmap_r, Forall_Forall2_diag, Forall_forall. intros c _.
  cbn [compose]. destruct (selected (data c)); [|done].
  rewrite movedNode_translation.
  rewrite type_transformedByMatrix, key_transformedByMatrix,
    data_transformedByMatrix, worldMatrix_transformedByMatrix. done.
Qed.

(** ** Promotion to the front ([moveTop], [makeOnlySelected], [makeActive]) *)

Lemma findIndex_head p c l : p c = true → findIndex p (c :: l) = Some 0.
Proof.
  intros Hc. apply findIndex_Some. exists c. split_and!; [done..|].
  intros j y _ Hj. lia.
Qed.

(** X4.  [moveTop(key)] only reorders: the children of the result are a
    permutation of the children of the parent and the parent's own fields
    are kept.  When no child carries the key the parent is returned as it
    is; otherwise the first child that carries it comes first and the other
    children follow in their former order.  Doing it twice is the same as
    doing it once. *)
Theorem moveTop_reorders (k : option Z) (parent : Node) :
  children (moveTop k parent) ≡ₚ children parent
  ∧ type (moveTop k parent) = type parent
  ∧ key (moveTop k parent) = key parent
  ∧ worldMatrix (moveTop k parent) = worldMatrix parent
  ∧ data (moveTop k parent) = data parent
  ∧ match findIndex (key_is k) (children parent) with
    | None => moveTop k parent = parent
    | Some i =>
        ∃ c, children parent !! i = Some c ∧ key c = k
             ∧ children (moveTop k parent)
               = c :: take i (children parent) ++ drop (S i) (children parent)
    end
  ∧ moveTop k (moveTop k parent) = moveTop k parent.
Proof.
  destruct (findIndex (key_is k) (children parent)) as [i|] eqn:Hi.
  - apply findIndex_Some in Hi as Hi'. destruct Hi' as (c & Hc & Hk & _).
    assert (moveTop k parent
            = with_children parent
                (c :: take i (children parent) ++ drop (S i) (children parent)))
      as Heq.
    { unfold moveTop. by rewrite Hi, Hc, spread_id. }
    rewrite Heq. cbn [children with_children type key worldMatrix data].
    split_and!; try done.
    + rewrite <- (take_drop_middle (children parent) i c Hc) at 3.
      by rewrite Permutation_middle.
    + exists c. split_and!; [done| |done].
      unfold key_is in Hk. by apply bool_decide_eq_true in Hk.
    + unfold moveTop at 1. cbn [children with_children].
      rewrite (findIndex_head _ _ _ Hk). cbn [lookup list_lookup].
      by rewrite spread_id.
  - assert (moveTop k parent = parent) as Heq.
    { unfold moveTop. by rewrite Hi. }
    by rewrite !Heq.
Qed.

Lemma promote_present others k parent i c :
  findIndex (key_is k) (children parent) = Some i →
  children parent !! i = Some c →
  promote others k parent
  = with_children parent
      (selectNode c
         :: map others (take i (children parent) ++ drop (S i) (children parent))).
Proof.
  intros Hi Hc. apply findIndex_Some in Hi as Hi'.
  destruct Hi' as (c' & Hc' & Hk & _).
  assert (c' = c) as -> by congruence.
  unfold promote, moveTop. rewrite Hi, Hc, spread_id.
  cbn [children with_children]. by rewrite Hk.
Qed.

Lemma promote_absent others k parent :
  findIndex (key_is k) (children parent) = None →
  promote others k parent = parent.
Proof.
  intros Hi. unfold promote, moveTop. rewrite Hi.
  destruct (children parent) as [|c0 rest] eqn:Hcs; [done|].
  apply findIndex_None in Hi.
  inversion Hi as [|? ? Hc0 _]; subst. by rewrite Hc0.
Qed.

Lemma length_take_drop {A} (l : list A) i c :
  l !! i = Some c → S (length (take i l ++ drop (S i) l)) = length l.
Proof.
  intros Hc. rewrite <- (take_drop_middle l i c Hc) at 3.
  rewrite !length_app. cbn [length]. lia.
Qed.

(** X5.  [makeOnlySelected(key)] is the exclusive selection.  When no child
    carries the key the parent is returned as it is.  Otherwise the first
    child that carries it comes first, selected and active, and every other
    child follows in its former order with [selected] and [active] both
    cleared, keeping its tag, key, matrix and children; no child is added or
    lost. *)
Theorem makeOnlySelected_selects_exclusively (k : option Z) (parent : Node) :
  match findIndex (key_is k) (children parent) with
  | None => makeOnlySelected k parent = parent
  | Some i =>
      ∃ c first rest,
        children parent !! i = Some c
        ∧ children (makeOnlySelected k parent) = first :: rest
        ∧ key first = k ∧ type first = type c
        ∧ worldMatrix first = worldMatrix c ∧ children first = children c
        ∧ selected (data first) = true ∧ active (data first) = true
        ∧ Forall2
            (fun n n' =>
               type n' = type n ∧ key n' = key n
               ∧ worldMatrix n' = worldMatrix n ∧ children n' = children n
               ∧ selected (data n') = false ∧ active (data n') = false)
            (take i (children parent) ++ drop (S i) (children parent)) rest
        ∧ length (children (makeOnlySelected k parent))
          = length (children parent)
  end.
Proof.
  destruct (findIndex (key_is k) (children parent)) as [i|] eqn:Hi.
  - apply findIndex_Some in Hi as Hi'. destruct Hi' as (c & Hc & Hk & _).
    unfold makeOnlySelected. rewrite (promote_present _ _ _ _ _ Hi Hc).
    cbn [children with_children].
    eexists c, _, _. split; [done|]. split; [reflexivity|].
    unfold key_is in Hk. apply bool_decide_eq_true in Hk.
    split_and!; try (by destruct c).
    + apply Forall2_fmap_r, Forall_Forall2_diag, Forall_forall.
      intros n _. by destruct n.
    + cbn [length]. rewrite length_map. by eapply length_take_drop.
  - by apply promote_absent.
Qed.

(** X6.  [makeActive(key)] promotes without deselecting.  When no child
    carries the key the parent is returned as it is.  Otherwise the first
    child that carries it comes first, selected and active, and every other
    child follows in its former order with [active] cleared and [selected]
    as it was. *)
Theorem makeActive_keeps_the_selection (k : option Z) (parent : Node) :
  match findIndex (key_is k) (children parent) with
  | None => makeActive k parent = parent
  | Some i =>
      ∃ c first rest,
        children parent !! i = Some c
        ∧ children (makeActive k parent) = first :: rest
        ∧ key first = k ∧ type first = type c
        ∧ worldMatrix first = worldMatrix c ∧ children first = children c
        ∧ selected (data first) = true ∧ active (data first) = true
        ∧ Forall2
            (fun n n' =>
               type n' = type n ∧ key n' = key n
               ∧ worldMatrix n' = worldMatrix n ∧ children n' = children n
               ∧ selected (data n') = selected (data n)
               ∧ active (data n') = false)
            (take i (children parent) ++ drop (S i) (children parent)) rest
        ∧ length (children (makeActive k parent)) = length (children parent)
  end.
Proof.
  destruct (findIndex (key_is k) (children parent)) as [i|] eqn:Hi.
  - apply findIndex_Some in Hi as Hi'. destruct Hi' as (c & Hc & Hk & _).
    unfold makeActive. rewrite (promote_present _ _ _ _ _ Hi Hc).
    cbn [children with_children].
    eexists c, _, _. split; [done|]. split; [reflexivity|].
    unfold key_is in Hk. apply bool_decide_eq_true in Hk.
    split_and!; try (by destruct c).
    + apply Forall2_fmap_r, Forall_Forall2_diag, Forall_forall.
      intros n _. by destruct n.
    + cbn [length]. rewrite length_map. by eapply length_take_drop.
  - by apply promote_absent.
Qed.

(** ** Lifting a keyed mutation ([liftReducer]) *)

Lemma lift_present (r : reducer) k parent i c :
  findIndex (key_is k) (children parent) = Some i →
  children parent !! i = Some c →
  lift (keyReducer k r) parent
  = (c' ← r c; Some (with_children parent (<[i := c']> (children parent)))).
Proof.
  intros Hi Hc. unfold lift, keyReducer. cbn [kkey kreducer].
  by rewrite spread_id, Hi, Hc.
Qed.

Lemma lift_missing (r : reducer) k parent :
  findIndex (key_is k) (children parent) = None →
  lift (keyReducer k r) parent = Some parent.
Proof.
  intros Hi. unfold lift, keyReducer. cbn [kkey kreducer].
  rewrite spread_id, Hi. by rewrite with_children_id.
Qed.

Lemma findIndex_insert p (l : list Node) i c' :
  findIndex p l = Some i → p c' = true → findIndex p (<[i := c']> l) = Some i.
Proof.
  intros Hi Hc'. apply findIndex_Some in Hi as (c & Hc & _ & Hlt).
  apply findIndex_Some. exists c'. split_and!.
  - apply list_lookup_insert_eq. by eapply lookup_lt_Some.
  - done.
  - intros j y Hy Hj. rewrite list_lookup_insert_ne in Hy by lia. by eapply Hlt.
Qed.

(** X7.  The parent-level mutation made from a child mutation keyed [k]
    raises only when the child mutation raises on the first child that
    carries [k].  When it returns, the parent keeps its own fields and the
    number of its children, and every child other than that first carrier of
    [k] is the child that was there, also when several children share the
    key. *)
Theorem lift_touches_one_child (r : reducer) (k : option Z) (parent : Node) :
  match lift (keyReducer k r) parent with
  | None =>
      ∃ i c, findIndex (key_is k) (children parent) = Some i
             ∧ children parent !! i = Some c ∧ r c = None
  | Some parent' =>
      type parent' = type parent ∧ key parent' = key parent
      ∧ worldMatrix parent' = worldMatrix parent ∧ data parent' = data parent
      ∧ length (children parent') = length (children parent)
      ∧ ∀ j, findIndex (key_is k) (children parent) ≠ Some j →
             children parent' !! j = children parent !! j
  end.
Proof.
  destruct (findIndex (key_is k) (children parent)) as [i|] eqn:Hi.
  - apply findIndex_Some in Hi as Hi'. destruct Hi' as (c & Hc & _).
    rewrite (lift_present r k parent i c Hi Hc).
    destruct (r c) as [c'|] eqn:Hr; cbn [mbind option_bind].
    + cbn [type key worldMatrix data children with_children].
      split_and!; try done.
      * apply length_insert.
      * intros j Hj. apply list_lookup_insert_ne. congruence.
    + by exists i, c.
  - rewrite (lift_missing r k parent Hi). by split_and!.
Qed.

(** X8.  Lifted mutations compose: when the first child mutation keeps the
    key of the child it is given, lifting it and then lifting a second one
    with the same key is lifting their composition, raised exceptions
    included. *)
Theorem lift_composes (r1 r2 : reducer) (k : option Z) (parent : Node) :
  (∀ c c', r1 c = Some c' → key c' = key c) →
  lift (keyReducer k r1) parent ≫= lift (keyReducer k r2)
  = lift (keyReducer k (fun c => r1 c ≫= r2)) parent.
Proof.
  intros Hkey.
  destruct (findIndex (key_is k) (children parent)) as [i|] eqn:Hi.
  - apply findIndex_Some in Hi as Hi'. destruct Hi' as (c & Hc & Hk & _).
    rewrite !(lift_present _ k parent i c Hi Hc).
    destruct (r1 c) as [c1|] eqn:Hr1; cbn [mbind option_bind]; [|done].
    assert (key_is k c1 = true) as Hk1.
    { unfold key_is in *. apply bool_decide_eq_true in Hk.
      apply bool_decide_eq_true. rewrite (Hkey c c1 Hr1). done. }
    rewrite (lift_present r2 k
               (with_children parent (<[i := c1]> (children parent))) i c1).
    + cbn [children with_children].
      destruct (r2 c1) as [c2|]; cbn [mbind option_bind]; [|done].
      unfold with_children. cbn [type key worldMatrix data children].
      by rewrite list_insert_insert_eq.
    + cbn [children with_children]. by apply findIndex_insert.
    + cbn [children with_children]. apply list_lookup_insert_eq.
      by eapply lookup_lt_Some.
  - rewrite !(lift_missing _ k parent Hi). cbn [mbind option_bind].
    by apply lift_missing.
Qed.

Lemma lift_composes_witness :
  lift (keyReducer (Some 1%Z) (fun n => Some (selectNode n))) two_node_plane
    ≫= lift (keyReducer (Some 1%Z) (fun n => Some (deselectNode n)))
  = lift (keyReducer (Some 1%Z)
            (fun c => Some (selectNode c) ≫= fun n => Some (deselectNode n)))
         two_node_plane.
Proof.
  apply (lift_composes (fun n => Some (selectNode n))
           (fun n => Some (deselectNode n)) (Some 1%Z) two_node_plane).
  intros c c' H. injection H as <-. reflexivity.
Defined.

(** ** Shift-click, deselection and panning *)

Lemma selectNode_selectNode c : selectNode (selectNode c) = selectNode c.
Proof. by destruct c. Qed.

Lemma deselectNode_selectNode c : deselectNode (selectNode c) = deselectNode c.
Proof. by destruct c. Qed.

Lemma deselectNode_deselectNode c : deselectNode (deselectNode c) = deselectNode c.
Proof. by destruct c. Qed.

Lemma key_is_selectNode k c : key_is k (selectNode c) = key_is k c.
Proof. by destruct c. Qed.

Lemma others_after_insert (cs : list Node) i c' :
  take i (<[i := c']> cs) ++ drop (S i) (<[i := c']> cs)
  = take i cs ++ drop (S i) cs.
Proof. by rewrite take_insert_ge, drop_insert_lt by lia. Qed.

(** X9.  Shift-click twice on an idle node (the first child that carries its
    key): the first click sends [selectNode] and [makeActive], after which
    the node is the first child, selected and active, and the other children
    follow with [active] cleared; the second click, on the node as it now
    is, sends [deselectNode] alone, after which the node is still the first
    child, neither selected nor active, and the other children are as the
    first click left them. *)
Theorem shiftclick_twice (plane c : Node) (i : nat) :
  findIndex (key_is (key c)) (children plane) = Some i →
  children plane !! i = Some c →
  active (data c) = false →
  let others :=
    map deactivate (take i (children plane) ++ drop (S i) (children plane)) in
  ∃ p1 p2,
    run (emitted (key c) (shiftclick c)) plane = Some p1
    ∧ children p1 = selectNode c :: others
    ∧ run (emitted (key (selectNode c)) (shiftclick (selectNode c))) p1 = Some p2
    ∧ children p2 = deselectNode c :: others.
Proof.
  intros Hi Hc Hact others.
  assert (key_is (key c) c = true) as Hk.
  { unfold key_is. by apply bool_decide_eq_true. }
  assert (run (emitted (key c) (shiftclick c)) plane
          = Some (with_children plane (selectNode c :: others))) as H1.
  { unfold shiftclick. rewrite Hact. unfold emitted, run.
    cbn [self parent map app foldl].
    cbn [mbind option_bind].
    rewrite (lift_present _ _ _ _ _ Hi Hc). cbn [mbind option_bind].
    unfold makeActive.
    rewrite (promote_present deactivate (key c)
               (with_children plane (<[i := selectNode c]> (children plane)))
               i (selectNode c)).
    - cbn [children with_children]. unfold with_children.
      cbn [type key worldMatrix data children].
      by rewrite selectNode_selectNode, others_after_insert.
    - cbn [children with_children]. apply findIndex_insert; [done|].
      by rewrite key_is_selectNode.
    - cbn [children with_children]. apply list_lookup_insert_eq.
      by eapply lookup_lt_Some. }
  eexists _, _. split; [exact H1|]. split; [reflexivity|].
  assert (key (selectNode c) = key c) as Hkey by (by destruct c).
  rewrite Hkey.
  assert (active (data (selectNode c)) = true) as Hact' by (by destruct c).
  unfold shiftclick. rewrite Hact'. unfold emitted, run.
  cbn [self parent map app foldl]. cbn [mbind option_bind].
  rewrite (lift_present _ (key c)
             (with_children plane (selectNode c :: others)) 0 (selectNode c)).
  - cbn [mbind option_bind children with_children].
    split; [reflexivity|]. cbn [children with_children].
    by rewrite deselectNode_selectNode.
  - cbn [children with_children]. apply findIndex_head.
    by rewrite key_is_selectNode.
  - reflexivity.
Qed.

Lemma shiftclick_twice_witness :
  let c := mkNode "graph-node" (Some 1%Z) math.identity
             (plain_data false false) [] in
  let others :=
    map deactivate (take 1 (children two_node_plane)
                    ++ drop 2 (children two_node_plane)) in
  ∃ p1 p2,
    run (emitted (key c) (shiftclick c)) two_node_plane = Some p1
    ∧ children p1 = selectNode c :: others
    ∧ run (emitted (key (selectNode c)) (shiftclick (selectNode c))) p1 = Some p2
    ∧ children p2 = deselectNode c :: others.
Proof.
  apply (shiftclick_twice two_node_plane
           (mkNode "graph-node" (Some 1%Z) math.identity
              (plain_data false false) []) 1).
  - reflexivity.
  - reflexivity.
  - reflexivity.
Defined.

(** X10.  [deselectGraphNodes] and [dragPlane] leave no GraphNode selected
    or active.  [deselectGraphNodes] changes nothing else (the plane's own
    fields, and the tag, key, matrix and children of every GraphNode, in
    order), and doing it twice is the same as doing it once. *)
Theorem deselection_clears_every_flag (plane : Node) (dx dy : Z) :
  Forall idle (children (deselectGraphNodes plane))
  ∧ Forall idle (children (dragPlane plane dx dy))
  ∧ type (deselectGraphNodes plane) = type plane
  ∧ key (deselectGraphNodes plane) = key plane
  ∧ worldMatrix (deselectGraphNodes plane) = worldMatrix plane
  ∧ data (deselectGraphNodes plane) = data plane
  ∧ Forall2
      (fun n n' =>
         type n' = type n ∧ key n' = key n
         ∧ worldMatrix n' = worldMatrix n ∧ children n' = children n)
      (children plane) (children (deselectGraphNodes plane))
  ∧ deselectGraphNodes (deselectGraphNodes plane) = deselectGraphNodes plane.
Proof.
  unfold deselectGraphNodes, dragPlane. rewrite !spread_id.
  cbn [type key worldMatrix data children with_children].
  split_and!; try done.
  - apply Forall_fmap, Forall_forall. intros n _. by destruct n.
  - apply Forall_fmap, Forall_forall. intros n _. by destruct n.
  - apply Forall2_fmap_r, Forall_Forall2_diag, Forall_forall.
    intros n _. by destruct n.
  - unfold with_children. cbn [type key worldMatrix data children]. f_equal.
    rewrite map_map. apply map_ext. intros n. apply deselectNode_deselectNode.
Qed.

(** X11.  [dragPlane] pans without zooming: for a plane with an affine
    matrix the linear part of the matrix is kept and its translation grows
    by [(dx, dy)] (times the homogeneous entry), so the on-screen length of
    the unit diagonal is unchanged; every GraphNode is moved by the same
    [(dx, dy)] on the canvas and deselected. *)
Theorem dragPlane_translates (plane : Node) (dx dy : Z) :
  affine (worldMatrix plane) →
  worldMatrix (dragPlane plane dx dy)
  = (let M := worldMatrix plane in
     Mat (m00 M) (m01 M) (m02 M + IZR dx * m22 M)
         (m10 M) (m11 M) (m12 M + IZR dy * m22 M)
         (m20 M) (m21 M) (m22 M))
  ∧ unit_diagonal_length (dragPlane plane dx dy) = unit_diagonal_length plane
  ∧ children (dragPlane plane dx dy)
    = map (fun n => deselectNode (movedNode n dx dy)) (children plane).
Proof.
  intros [H20 H21].
  assert (worldMatrix (dragPlane plane dx dy)
          = (let M := worldMatrix plane in
             Mat (m00 M) (m01 M) (m02 M + IZR dx * m22 M)
                 (m10 M) (m11 M) (m12 M + IZR dy * m22 M)
                 (m20 M) (m21 M) (m22 M))) as HM.
  { unfold dragPlane, frames.translatedFrame. rewrite translation_in_canvas.
    cbn [worldMatrix with_children].
    rewrite worldMatrix_transformedByMatrix, multiply_entries.
    unfold frames.translation.
    cbn [m00 m01 m02 m10 m11 m12 m20 m21 m22 fst snd].
    rewrite H20, H21. f_equal; ring. }
  split; [exact HM|]. split.
  - unfold unit_diagonal_length. rewrite !vec_to_canvas, HM.
    cbn [m00 m01 m02 m10 m11 m12 m20 m21 m22]. done.
  - unfold dragPlane. cbn [children with_children].
    unfold frames.translatedFrame. rewrite children_transformedByMatrix.
    rewrite map_map. apply map_ext. intros n. done.
Qed.

Lemma dragPlane_translates_witness :
  worldMatrix (dragPlane plane_30px 3 4)
  = (let M := worldMatrix plane_30px in
     Mat (m00 M) (m01 M) (m02 M + IZR 3 * m22 M)
         (m10 M) (m11 M) (m12 M + IZR 4 * m22 M)
         (m20 M) (m21 M) (m22 M))
  ∧ unit_diagonal_length (dragPlane plane_30px 3 4)
    = unit_diagonal_length plane_30px
  ∧ children (dragPlane plane_30px 3 4)
    = map (fun n => deselectNode (movedNode n 3 4)) (children plane_30px).
Proof.
  apply (dragPlane_translates plane_30px 3 4). split; reflexivity.
Defined.

(** ** Drag samples of the Plane and the start of a node drag *)

(** X12.  The Plane's own drag emits a pan for a sample, the first one
    included, exactly when both [movementX] and [movementY] are non-zero: a
    purely horizontal or purely vertical sample pans nothing. *)
Theorem plane_drag_emits_iff_both_nonzero (move : list MouseEvent) :
  plane_drag move
  = map (fun e state => dragPlane state (movementX e) (movementY e))
        (filter (fun e => movementX e ≠ 0%Z ∧ movementY e ≠ 0%Z) move)
  ∧ ∀ e, length (plane_drag [e])
         = if bool_decide (movementX e = 0%Z ∨ movementY e = 0%Z)
           then 0 else 1.
Proof.
  assert (∀ l, plane_drag l
               = map (fun e state => dragPlane state (movementX e) (movementY e))
                     (filter (fun e => movementX e ≠ 0%Z ∧ movementY e ≠ 0%Z) l))
    as Hfilter.
  { intros l. unfold plane_drag. f_equal.
    apply list_filter_iff. intros e. apply moves_iff. }
  split; [apply Hfilter|].
  intros e. rewrite Hfilter. case_bool_decide as H.
  - rewrite filter_cons_False; [done|]. intros [? ?]. destruct H; done.
  - rewrite filter_cons_True; [done|]. split; intros ?; apply H; auto.
Qed.

(** X13.  The start of a drag on a node that is not active (the first child
    that carries its key): whatever the first sample's movement, zero
    components included, the mutations sent for it leave the node first
    among the children, selected and active, with its matrix composed with
    the translation by that movement, and no child is added or lost. *)
Theorem drag_start_promotes_and_moves
    (plane c : Node) (i : nat) (e : MouseEvent) (rest : list MouseEvent) :
  findIndex (key_is (key c)) (children plane) = Some i →
  children plane !! i = Some c →
  active (data c) = false →
  ∃ first others,
    children (foldl (fun p m => m p) plane (moveStart c (e :: rest)))
    = first :: others
    ∧ key first = key c
    ∧ selected (data first) = true ∧ active (data first) = true
    ∧ worldMatrix first
      = math.multiply
          (frames.translation (IZR (movementX e), IZR (movementY e)))
          (worldMatrix c)
    ∧ S (length others) = length (children plane).
Proof.
  intros Hi Hc Hact. unfold moveStart. cbn [take]. rewrite Hact.
  assert (∀ others',
            ∃ first others,
              children
                (dragNodes e
                   (with_children plane
                      (selectNode c
                         :: map others'
                              (take i (children plane)
                               ++ drop (S i) (children plane)))))
              = first :: others
              ∧ key first = key c
              ∧ selected (data first) = true ∧ active (data first) = true
              ∧ worldMatrix first
                = math.multiply
                    (frames.translation (IZR (movementX e), IZR (movementY e)))
                    (worldMatrix c)
              ∧ S (length others) = length (children plane)) as Hgen.
  { intros others'. unfold dragNodes. rewrite spread_id.
    cbn [children with_children map].
    assert (selected (data (selectNode c)) = true) as -> by (by destruct c).
    eexists _, _. split; [reflexivity|].
    rewrite movedNode_translation, key_transformedByMatrix,
      data_transformedByMatrix, worldMatrix_transformedByMatrix.
    split_and!; try (by destruct c).
    rewrite !length_map. by eapply length_take_drop. }
  destruct (selected (data c) || shiftKey e); cbn [foldl].
  - unfold makeActive. rewrite (promote_present _ _ _ _ _ Hi Hc). apply Hgen.
  - unfold makeOnlySelected. rewrite (promote_present _ _ _ _ _ Hi Hc).
    apply Hgen.
Qed.

Lemma drag_start_promotes_and_moves_witness :
  let c := mkNode "graph-node" (Some 1%Z) math.identity
             (plain_data false false) [] in
  ∃ first others,
    children (foldl (fun p m => m p) two_node_plane
                (moveStart c (horizontal_move :: [])))
    = first :: others
    ∧ key first = key c
    ∧ selected (data first) = true ∧ active (data first) = true
    ∧ worldMatrix first
      = math.multiply
          (frames.translation
             (IZR (movementX horizontal_move), IZR (movementY horizontal_move)))
          (worldMatrix c)
    ∧ S (length others) = length (children two_node_plane).
Proof.
  apply (drag_start_promotes_and_moves two_node_plane
           (mkNode "graph-node" (Some 1%Z) math.identity
              (plain_data false false) []) 1 horizontal_move []).
  - reflexivity.
  - reflexivity.
  - reflexivity.
Defined.

(** ** Keys and the number of anchors under the repair *)

Lemma fmap_imap_same {A B C} (g : B → C) (h : A → C) (f : nat → A → B) (l : list A) :
  (∀ i x, g (f i x) = h x) → g <$> imap f l = h <$> l.
Proof.
  revert f. induction l as [|x l IH]; intros f Hf; [done|].
  cbn [imap fmap list_fmap]. rewrite Hf. f_equal. apply IH.
  intros i y. apply Hf.
Qed.

Lemma key_translatedFrame e d r : key (frames.translatedFrame e d r) = key e.
Proof. apply key_transformedByMatrix. Qed.

Lemma math_max_ge x xs y : y ∈ x :: xs → (y ≤ math.max x xs)%Z.
Proof.
  unfold math.max. induction xs as [|z xs IH]; cbn [foldr].
  - intros Hy. apply list_elem_of_singleton in Hy. lia.
  - intros Hy. apply elem_of_cons in Hy as [-> | Hy].
    + assert (x ≤ foldr Z.max x xs)%Z by (apply IH; left). lia.
    + apply elem_of_cons in Hy as [-> | Hy]; [lia|].
      assert (y ≤ foldr Z.max x xs)%Z by (apply IH; by right). lia.
Qed.

Lemma key_or_0_key c k : key c = Some k → key_or_0 c = k.
Proof.
  intros Hk. unfold key_or_0, truthy. rewrite Hk.
  destruct (Z.eqb_spec k 0); simpl; lia.
Qed.

Lemma addEdgeNode_shape node :
  match addEdgeNode node with
  | None => children node = []
  | Some node' =>
      ∃ c0 cs lastc newEdge,
        children node = c0 :: cs
        ∧ node' = with_children node
                    (imap (fun i e =>
                             if is_out e
                             then frames.translatedFrame e
                                    (-2 * INR i
                                       / (INR (length (children node))
                                          * (INR (length (children node)) + 1)),
                                     0)%R
                                    (worldMatrix node)
                             else e)
                          (children node)
                     ++ [newEdge])
        ∧ last (children node) = Some lastc
        ∧ key newEdge = Some (math.max (key_or_0 c0) (map key_or_0 cs) + 1)%Z
        ∧ type newEdge = type lastc
        ∧ linkedTo (data newEdge) = None
  end.
Proof.
  unfold addEdgeNode. rewrite spread_id.
  destruct (children node !! (length (children node) - 1)) as [lastc|] eqn:Hl.
  - destruct (children node) as [|c0 cs] eqn:Hcs; [done|].
    eexists c0, cs, lastc, _.
    split; [done|]. split; [reflexivity|]. split.
    { rewrite last_lookup. rewrite <- Hl. f_equal. cbn [length]. lia. }
    split; [reflexivity|]. split.
    { cbn [type with_key with_data]. apply type_transformedByMatrix. }
    reflexivity.
  - apply lookup_ge_None in Hl.
    destruct (children node) as [|c0 cs]; [done|]. cbn [length] in Hl. lia.
Qed.

Lemma updateGraphNode_cases node :
  match updateGraphNode node with
  | None => children node = []
  | Some node' =>
      node' = node
      ∨ (∃ i c, children node !! i = Some c
                ∧ S i < length (children node)
                ∧ node' = removeEdgeNode node i)
      ∨ addEdgeNode node = Some node'
  end.
Proof.
  unfold updateGraphNode.
  destruct (findIndex open_out (children node)) as [i|] eqn:Hi.
  - apply findIndex_Some in Hi as (c & Hc & _).
    destruct (i =? length (children node) - 1) eqn:Heq; [by left|].
    right. left. exists i, c. split; [done|]. split; [|done].
    apply Nat.eqb_neq in Heq. apply lookup_lt_Some in Hc. lia.
  - pose proof (addEdgeNode_shape node) as Hadd.
    destruct (addEdgeNode node) as [node'|]; [|done]. by right; right.
Qed.

Lemma keys_removeEdgeNode node i :
  key <$> children (removeEdgeNode node i) = delete i (key <$> children node).
Proof.
  unfold removeEdgeNode. rewrite spread_id. cbn [children with_children].
  rewrite <- list_fmap_delete, delete_take_drop, !fmap_app, Nat.add_1_r.
  f_equal.
  - apply fmap_imap_same. intros j x.
    destruct (is_out x); [apply key_translatedFrame | done].
  - apply fmap_imap_same. intros j x. apply key_translatedFrame.
Qed.

(** X14.  The repair keeps sibling keys distinct.  If no two children of a
    GraphNode have the same key, the same holds after [updateGraphNode]: the
    anchor it adds gets a key above every key in use, the anchors it keeps
    keep their keys.  [updateGraphNode] raises only on a node without
    children. *)
Theorem updateGraphNode_keeps_keys_distinct (node : Node) :
  NoDup (key <$> children node) →
  match updateGraphNode node with
  | None => children node = []
  | Some node' => NoDup (key <$> children node')
  end.
Proof.
  intros Hnd. pose proof (updateGraphNode_cases node) as Hcases.
  destruct (updateGraphNode node) as [node'|]; [|done].
  destruct Hcases as [-> | [(i & c & _ & _ & ->) | Hadd]]; [done| |].
  - rewrite keys_removeEdgeNode.
    eapply sublist_NoDup; [exact Hnd | apply sublist_delete].
  - pose proof (addEdgeNode_shape node) as Hshape. rewrite Hadd in Hshape.
    destruct Hshape as (c0 & cs & lastc & newEdge & Hcs & -> & _ & Hkey & _ & _).
    cbn [children with_children]. rewrite fmap_app.
    rewrite (fmap_imap_same key key).
    2:{ intros j x. destruct (is_out x); [apply key_translatedFrame | done]. }
    apply NoDup_app. split; [done|]. split; [|apply NoDup_singleton].
    intros k Hk Hin. cbn [fmap list_fmap] in Hin.
    apply list_elem_of_singleton in Hin. subst k.
    apply list_elem_of_fmap in Hk as (c & Hkc & Hc).
    rewrite Hkey in Hkc. symmetry in Hkc. apply key_or_0_key in Hkc.
    assert (key_or_0 c ≤ math.max (key_or_0 c0) (map key_or_0 cs))%Z.
    { apply math_max_ge. rewrite Hcs in Hc.
      change (key_or_0 c0 :: map key_or_0 cs) with (key_or_0 <$> c0 :: cs).
      apply list_elem_of_fmap. by exists c. }
    lia.
Qed.

Lemma updateGraphNode_keeps_keys_distinct_witness :
  match updateGraphNode linked_node with
  | None => children linked_node = []
  | Some node' => NoDup (key <$> children node')
  end.
Proof.
  apply (updateGraphNode_keeps_keys_distinct linked_node).
  apply (bool_decide_unpack _). reflexivity.
Defined.

Lemma length_removeEdgeNode node i c :
  children node !! i = Some c →
  S (length (children (removeEdgeNode node i))) = length (children node).
Proof.
  intros Hc. pose proof (keys_removeEdgeNode node i) as Hk.
  apply (f_equal length) in Hk. rewrite !length_fmap in Hk. rewrite Hk.
  rewrite length_delete by (rewrite list_lookup_fmap, Hc; by eexists).
  rewrite length_fmap. apply lookup_lt_Some in Hc. lia.
Qed.

Lemma updateGraphNode_length node :
  match updateGraphNode node with
  | None => children node = []
  | Some node' =>
      length (children node') = length (children node)
      ∨ length (children node') = S (length (children node))
      ∨ S (length (children node')) = length (children node)
  end.
Proof.
  pose proof (updateGraphNode_cases node) as Hcases.
  destruct (updateGraphNode node) as [node'|]; [|done].
  destruct Hcases as [-> | [(i & c & Hc & _ & ->) | Hadd]].
  - by left.
  - right; right. by eapply length_removeEdgeNode.
  - right; left. pose proof (addEdgeNode_shape node) as Hshape.
    rewrite Hadd in Hshape.
    destruct Hshape as (c0 & cs & lastc & newEdge & _ & -> & _).
    cbn [children with_children]. rewrite length_app, length_imap.
    cbn [length]. lia.
Qed.

(** X15.  One sample of an edge drag changes the number of children of the
    GraphNode by at most one: a [mousemove] sample (its [self] mutation
    alone) never changes it; a release (its [self] mutation, then
    [updateGraphNode]) leaves it, adds one or removes one.  The only raised
    exception is the release on a GraphNode without children. *)
Theorem edge_drag_changes_count_by_at_most_one
    (node : Node) (k : option Z) (s : hoverSample) :
  match run (emitted k (edge_drag s)) node with
  | None => children node = [] ∧ etype (event s) ≠ "mousemove"
  | Some node' =>
      (etype (event s) = "mousemove" →
       length (children node') = length (children node))
      ∧ (length (children node') = length (children node)
         ∨ length (children node') = S (length (children node))
         ∨ S (length (children node')) = length (children node))
  end.
Proof.
  unfold edge_drag. case_bool_decide as Hty.
  - unfold emitted, run. cbn [self parent map app foldl mbind option_bind].
    destruct (lift_total
                (fun e => updateEdgeNode e (hoveredNode s) (hposition s)) k node)
      as (node1 & -> & Hshape).
    assert (length (children node1) = length (children node)) as Hlen.
    { destruct Hshape as [-> | (i & c & _ & ->)]; [done|].
      cbn [children with_children]. apply length_insert. }
    split; [done | by left].
  - unfold emitted, run. cbn [self parent map app foldl mbind option_bind].
    destruct (lift_total (finalize (hoveredNode s) (hposition s)) k node)
      as (node1 & -> & Hshape).
    cbn [mbind option_bind].
    assert (length (children node1) = length (children node)) as Hlen.
    { destruct Hshape as [-> | (i & c & _ & ->)]; [done|].
      cbn [children with_children]. apply length_insert. }
    pose proof (updateGraphNode_length node1) as Hup.
    destruct (updateGraphNode node1) as [node2|].
    + rewrite <- Hlen. split; [done | exact Hup].
    + split; [|done]. apply length_zero_iff_nil.
      rewrite <- Hlen, Hup. done.
Qed.

(** ** Adding an anchor and taking it away again *)

Lemma imap_after_imap {A} (f g : nat → A → A) (l : list A) :
  imap g (imap f l) = imap (fun i x => g i (f i x)) l.
Proof.
  revert f g. induction l as [|x l IH]; intros f g; [done|].
  cbn [imap]. f_equal. exact (IH (f ∘ S) (g ∘ S)).
Qed.

Lemma Forall2_imap_r {A} (P : A → A → Prop) (f : nat → A → A) (l : list A) :
  (∀ i x, P x (f i x)) → Forall2 P l (imap f l).
Proof.
  revert f. induction l as [|x l IH]; intros f Hf; cbn [imap]; constructor.
  - apply Hf.
  - apply IH. intros i y. apply Hf.
Qed.

Lemma frame_kept_translatedFrame (c : Node) (d : R * R) (w : matrix) :
  let c' := frames.translatedFrame c d w in
  type c' = type c ∧ key c' = key c ∧ data c' = data c
  ∧ length (children c') = length (children c).
Proof.
  cbn zeta. unfold frames.translatedFrame.
  rewrite type_transformedByMatrix, key_transformedByMatrix,
    data_transformedByMatrix, children_transformedByMatrix, length_map. done.
Qed.

(** X16.  [removeEdgeNode] takes back the spacing of [addEdgeNode]: after
    adding the trailing anchor to a GraphNode with [n] children and removing
    the child at the position of the new anchor, the GraphNode has its own
    fields and its [n] children again, in order; a child that is not an
    OutEdgeNode is the child that was there, and an OutEdgeNode at
    position [i] has been translated in the frame of the GraphNode by
    [- 2 i / (n (n + 1))] along x and then by the same amount back, keeping
    its tag, key and data.  ([addEdgeNode] raises only on a node without
    children.) *)
Theorem addEdgeNode_then_removeEdgeNode (node : Node) :
  match addEdgeNode node with
  | None => children node = []
  | Some node' =>
      let n := length (children node) in
      let back := removeEdgeNode node' n in
      type back = type node ∧ key back = key node
      ∧ worldMatrix back = worldMatrix node ∧ data back = data node
      ∧ children back
        = imap (fun i c =>
                  if is_out c
                  then let d := (2 * INR i / (INR n * (INR n + 1)))%R in
                       frames.translatedFrame
                         (frames.translatedFrame c (- d, 0)%R
                            (worldMatrix node))
                         (d, 0)%R (worldMatrix node)
                  else c)
               (children node)
      ∧ Forall2
          (fun c c' =>
             type c' = type c ∧ key c' = key c ∧ data c' = data c
             ∧ length (children c') = length (children c)
             ∧ (is_out c = false → c' = c))
          (children node) (children back)
  end.
Proof.
  pose proof (addEdgeNode_shape node) as Hshape.
  destruct (addEdgeNode node) as [node'|]; [|done].
  destruct Hshape as (c0 & cs & lastc & newEdge & Hcs & -> & _).
  cbn zeta.
  assert (children (removeEdgeNode
                      (with_children node
                         (imap (fun i e =>
                                  if is_out e
                                  then frames.translatedFrame e
                                         (-2 * INR i
                                            / (INR (length (children node))
                                               * (INR (length (children node)) + 1)),
                                          0)%R
                                         (worldMatrix node)
                                  else e)
                               (children node)
                          ++ [newEdge]))
                      (length (children node)))
          = imap (fun i c =>
                    if is_out c
                    then frames.translatedFrame
                           (frames.translatedFrame c
                              (- (2 * INR i
                                  / (INR (length (children node))
                                     * (INR (length (children node)) + 1))),
                               0)%R
                              (worldMatrix node))
                           (2 * INR i
                              / (INR (length (children node))
                                 * (INR (length (children node)) + 1)),
                            0)%R (worldMatrix node)
                    else c)
                 (children node)) as Hback.
  { unfold removeEdgeNode. rewrite spread_id.
    cbn [children worldMatrix with_children].
    rewrite take_app_length' by (by rewrite length_imap).
    rewrite drop_ge by (rewrite length_app, length_imap; cbn [length]; lia).
    cbn [imap]. rewrite app_nil_r, imap_after_imap.
    apply imap_ext. intros i x _. cbn beta.
    destruct (is_out x) eqn:Hout; [|by rewrite Hout].
    rewrite is_out_translatedFrame, Hout.
    rewrite length_app, length_imap. cbn [length].
    rewrite plus_INR. cbn [INR].
    assert (0 < INR (length (children node)))%R as Hpos.
    { rewrite Hcs. cbn [length]. rewrite S_INR.
      pose proof (pos_INR (length cs)). lra. }
    f_equal; [f_equal; f_equal; field; lra | f_equal; field; lra]. }
  split_and!.
  - unfold removeEdgeNode. by rewrite spread_id.
  - unfold removeEdgeNode. by rewrite spread_id.
  - unfold removeEdgeNode. by rewrite spread_id.
  - unfold removeEdgeNode. by rewrite spread_id.
  - exact Hback.
  - rewrite Hback. apply Forall2_imap_r. intros i c.
    destruct (is_out c); [|done].
    destruct (frame_kept_translatedFrame c
                (- (2 * INR i
                    / (INR (length (children node))
                       * (INR (length (children node)) + 1))), 0)%R
                (worldMatrix node)) as (Ht & Hk & Hd & Hl).
    destruct (frame_kept_translatedFrame
                (frames.translatedFrame c
                   (- (2 * INR i
                       / (INR (length (children node))
                          * (INR (length (children node)) + 1))), 0)%R
                   (worldMatrix node))
                (2 * INR i
                 / (INR (length (children node))
                    * (INR (length (children node)) + 1)), 0)%R
                (worldMatrix node)) as (Ht' & Hk' & Hd' & Hl').
    split_and!; [congruence..|done].
Qed.

(** ** The store view: where [selectNode] and [deselectNode] write *)

Lemma flag_writes (σ : Store.store) (l d : Store.loc)
    (props dprops : gmap string Store.val) (b : bool) (f : Store.val → Store.M Store.val) :
  (f = Store.selectNode ∧ b = true) ∨ (f = Store.deselectNode ∧ b = false) →
  Store.objs σ !! l = Some (Store.OObj props) →
  props !! "data" = Some (Store.VRef d) →
  Store.objs σ !! d = Some (Store.OObj dprops) →
  Store.objs σ !! Store.next σ = None →
  f (Store.VRef l) σ
  = (Store.Ok (Store.VRef (Store.next σ)),
     Store.mkStore
       (<[d := Store.OObj (<["active" := Store.VBool b]>
                             (<["selected" := Store.VBool b]> dprops))]>
          (<[d := Store.OObj (<["selected" := Store.VBool b]> dprops)]>
             (<[Store.next σ := Store.OObj props]> (Store.objs σ))))
       (S (Store.next σ))).
Proof.
  intros Hf Hl Hdata Hd Hnext.
  assert (d ≠ Store.next σ) as Hfresh by congruence.
  assert (f (Store.VRef l)
          = (nodeCopy ← Store.spread (Store.VRef l);
             d ← Store.get nodeCopy "data";
             Store.set d "selected" (Store.VBool b);;
             d ← Store.get nodeCopy "data";
             Store.set d "active" (Store.VBool b);;
             Store.ret nodeCopy)) as ->.
  { by destruct Hf as [[-> ->] | [-> ->]]. }
  rewrite (bind_ok _ _ _ _ _ (spread_obj _ _ _ Hl)).
  erewrite bind_ok; [|apply get_obj; cbn [Store.objs]; apply lookup_insert_eq].
  rewrite Hdata. cbn [default].
  erewrite bind_ok;
    [|apply set_obj; cbn [Store.objs]; by rewrite lookup_insert_ne].
  erewrite bind_ok;
    [|apply get_obj; cbn [Store.objs];
      by rewrite lookup_insert_ne, lookup_insert_eq].
  rewrite Hdata. cbn [default].
  erewrite bind_ok; [|apply set_obj; cbn [Store.objs]; apply lookup_insert_eq].
  reflexivity.
Qed.

Lemma flag_writes_through (σ : Store.store) (l d : Store.loc)
    (props dprops : gmap string Store.val) (b : bool)
    (f : Store.val → Store.M Store.val) :
  (f = Store.selectNode ∧ b = true) ∨ (f = Store.deselectNode ∧ b = false) →
  Store.objs σ !! l = Some (Store.OObj props) →
  props !! "data" = Some (Store.VRef d) →
  Store.objs σ !! d = Some (Store.OObj dprops) →
  Store.objs σ !! Store.next σ = None →
  writes_through f b σ l d props dprops.
Proof.
  intros Hf Hl Hdata Hd Hnext.
  assert (d ≠ Store.next σ) as Hfresh by congruence.
  unfold writes_through.
  rewrite (flag_writes σ l d props dprops b f Hf Hl Hdata Hd Hnext).
  eexists. split; [reflexivity|]. cbn [Store.objs]. split_and!.
  - by rewrite !lookup_insert_ne, lookup_insert_eq by done.
  - by rewrite lookup_insert_eq.
  - intros l' Hd' Hn'. by rewrite !lookup_insert_ne by done.
Qed.

(** X19.  In every store whose next location is fresh, [selectNode] and
    [deselectNode] on a node object whose [data] is an object return a
    reference to a new object with the properties of the node (the same
    [data] reference included), write the two flags ([true] for
    [selectNode], [false] for [deselectNode]) into that [data] object, the
    one the input node refers to, and change no other object. *)
Theorem flags_are_written_to_the_shared_data (σ : Store.store) (l d : Store.loc)
    (props dprops : gmap string Store.val) :
  Store.objs σ !! l = Some (Store.OObj props) →
  props !! "data" = Some (Store.VRef d) →
  Store.objs σ !! d = Some (Store.OObj dprops) →
  Store.objs σ !! Store.next σ = None →
  writes_through Store.selectNode true σ l d props dprops
  ∧ writes_through Store.deselectNode false σ l d props dprops.
Proof.
  intros Hl Hdata Hd Hnext.
  split; apply flag_writes_through; try done; [by left | by right].
Qed.

Lemma flags_are_written_to_the_shared_data_witness :
  writes_through Store.selectNode true idle_node_store 0 1
    (list_to_map
       [ ("type", Store.VStr "graph-node");
         ("key", Store.VNum 0);
         ("worldMatrix", Store.VMat math.identity);
         ("data", Store.VRef 1);
         ("children", Store.VRef 2) ])
    (list_to_map
       [ ("title", Store.VStr "");
         ("selected", Store.VBool false);
         ("active", Store.VBool false) ])
  ∧ writes_through Store.deselectNode false idle_node_store 0 1
      (list_to_map
         [ ("type", Store.VStr "graph-node");
           ("key", Store.VNum 0);
           ("worldMatrix", Store.VMat math.identity);
           ("data", Store.VRef 1);
           ("children", Store.VRef 2) ])
      (list_to_map
         [ ("title", Store.VStr "");
           ("selected", Store.VBool false);
           ("active", Store.VBool false) ]).
Proof.
  apply (flags_are_written_to_the_shared_data idle_node_store 0 1 _ _
           eq_refl eq_refl eq_refl eq_refl).
Defined.

Lemma flag_without_data (σ : Store.store) (v : Store.val) (b : bool)
    (f : Store.val → Store.M Store.val) ps :
  (f = Store.selectNode ∧ b = true) ∨ (f = Store.deselectNode ∧ b = false) →
  Store.own_props v σ = (Store.Ok ps, σ) →
  ps !! "data" = None →
  fst (f v σ) = Store.Raise Store.TypeError.
Proof.
  intros Hf Hps Hdata.
  assert (f v
          = (nodeCopy ← Store.spread v;
             d ← Store.get nodeCopy "data";
             Store.set d "selected" (Store.VBool b);;
             d ← Store.get nodeCopy "data";
             Store.set d "active" (Store.VBool b);;
             Store.ret nodeCopy)) as ->.
  { by destruct Hf as [[-> ->] | [-> ->]]. }
  erewrite bind_ok;
    [|unfold Store.spread; erewrite bind_ok; [reflexivity | exact Hps]].
  erewrite bind_ok; [|apply get_obj; cbn [Store.objs]; apply lookup_insert_eq].
  rewrite Hdata. reflexivity.
Qed.

(** X20.  [selectNode] and [deselectNode] raise [TypeError] when the node
    has no [data]: on [undefined], and on every node object without a
    [data] property (a Window or a Plane, for instance), since the flag is
    assigned on [nodeCopy.data]. *)
Theorem flags_need_a_data_object (σ : Store.store) (l : Store.loc)
    (props : gmap string Store.val) :
  Store.objs σ !! l = Some (Store.OObj props) →
  props !! "data" = None →
  fst (Store.selectNode (Store.VRef l) σ) = Store.Raise Store.TypeError
  ∧ fst (Store.deselectNode (Store.VRef l) σ) = Store.Raise Store.TypeError
  ∧ fst (Store.selectNode Store.VUndef σ) = Store.Raise Store.TypeError
  ∧ fst (Store.deselectNode Store.VUndef σ) = Store.Raise Store.TypeError.
Proof.
  intros Hl Hdata.
  assert (Store.own_props (Store.VRef l) σ = (Store.Ok props, σ)) as Hps.
  { unfold Store.own_props. by rewrite (bind_ok _ _ _ _ _ (deref_obj _ _ _ Hl)). }
  split_and!.
  - eapply (flag_without_data σ _ true); [by left | exact Hps | done].
  - eapply (flag_without_data σ _ false); [by right | exact Hps | done].
  - eapply (flag_without_data σ _ true); [by left | reflexivity | done].
  - eapply (flag_without_data σ _ false); [by right | reflexivity | done].
Qed.

Lemma flags_need_a_data_object_witness :
  fst (Store.selectNode (Store.VRef 4) empty_scene) = Store.Raise Store.TypeError
  ∧ fst (Store.deselectNode (Store.VRef 4) empty_scene)
    = Store.Raise Store.TypeError
  ∧ fst (Store.selectNode Store.VUndef empty_scene) = Store.Raise Store.TypeError
  ∧ fst (Store.deselectNode Store.VUndef empty_scene)
    = Store.Raise Store.TypeError.
Proof.
  apply (flags_need_a_data_object empty_scene 4 _ eq_refl). reflexivity.
Defined.

(** ** What a zoom leaves alone *)

Lemma changeZoom_blocked_or_free (e : MouseEvent) (plane : Node) :
  changeZoom e plane = plane
  ∨ changeZoom e plane
    = frames.scaledFrame plane
        (math.pow 1.1 (- deltaY e) * 1, math.pow 1.1 (- deltaY e) * 1)%R
        (Mat 1 0 (fst (position e))
             0 (-1) (snd (position e))
             0 0 1).
Proof.
  assert (((zoomScale plane < 5 ∧ 0 < deltaY e)
           ∨ (10 < zoomScale plane ∧ deltaY e < 0))%R
          ∨ (¬ (zoomScale plane < 5 ∧ 0 < deltaY e)%R
             ∧ ¬ (10 < zoomScale plane ∧ deltaY e < 0)%R)) as [H | [H1 H2]].
  { destruct (Rlt_dec (zoomScale plane) 5), (Rlt_dec 0 (deltaY e)),
      (Rlt_dec 10 (zoomScale plane)), (Rlt_dec (deltaY e) 0); tauto. }
  - left. by apply changeZoom_blocked.
  - right. by apply changeZoom_free.
Qed.

(** X21.  [changeZoom] changes matrices only: the Plane keeps its tag, key
    and data, and its GraphNodes keep their number, their order and, each of
    them, tag, key, data (the [selected] and [active] flags included) and
    number of children. *)
Theorem changeZoom_changes_matrices_only (e : MouseEvent) (plane : Node) :
  type (changeZoom e plane) = type plane
  ∧ key (changeZoom e plane) = key plane
  ∧ data (changeZoom e plane) = data plane
  ∧ Forall2
      (fun n n' =>
         type n' = type n ∧ key n' = key n ∧ data n' = data n
         ∧ length (children n') = length (children n))
      (children plane) (children (changeZoom e plane)).
Proof.
  destruct (changeZoom_blocked_or_free e plane) as [-> | ->].
  - split_and!; try done. apply Forall_Forall2_diag, Forall_forall.
    intros n _. done.
  - unfold frames.scaledFrame.
    rewrite type_transformedByMatrix, key_transformedByMatrix,
      data_transformedByMatrix, children_transformedByMatrix.
    split_and!; try done.
    apply Forall2_fmap_r, Forall_Forall2_diag, Forall_forall. intros n _.
    cbn [compose].
    rewrite type_transformedByMatrix, key_transformedByMatrix,
      data_transformedByMatrix, children_transformedByMatrix, length_map.
    done.
Qed.

(** ** The store view: what [appendNode] leaves alone *)

Create HintDb keeps.

Lemma keeps_ret {A} (a : A) : keeps_objects (Store.ret a).
Proof. intros σ. by split. Qed.

Lemma keeps_raise {A} e : keeps_objects (@Store.raise A e).
Proof. intros σ. by split. Qed.

Lemma keeps_alloc o : keeps_objects (Store.alloc o).
Proof.
  intros σ. unfold Store.alloc. cbn [snd Store.next Store.objs]. split; [lia|].
  intros l Hl. apply lookup_insert_ne. lia.
Qed.

Lemma keeps_deref l : keeps_objects (Store.deref l).
Proof. intros σ. unfold Store.deref. by destruct (Store.objs σ !! l). Qed.

Lemma keeps_bind {A B} (m : Store.M A) (k : A → Store.M B) :
  keeps_objects m → (∀ a, keeps_objects (k a)) → keeps_objects (m ≫= k).
Proof.
  intros Hm Hk σ. unfold mbind, Store.M_bind, Store.bind.
  destruct (Hm σ) as [Hn Ho]. destruct (m σ) as [[a|e] σ1]; cbn [snd] in *.
  - destruct (Hk a σ1) as [Hn1 Ho1]. split; [lia|].
    intros l Hl. rewrite Ho1 by lia. by apply Ho.
  - by split.
Qed.

Lemma keeps_bind_raises {A B} (m : Store.M A) (k : A → Store.M B) :
  keeps_objects m → (∀ σ, ∃ e, fst (m σ) = Store.Raise e) →
  keeps_objects (m ≫= k).
Proof.
  intros Hm Hr σ. unfold mbind, Store.M_bind, Store.bind.
  destruct (Hm σ) as [Hn Ho]. destruct (Hr σ) as [e He].
  destruct (m σ) as [[a|e'] σ1]; cbn [fst snd] in *; [done | by split].
Qed.

#[global] Hint Resolve keeps_ret keeps_raise keeps_alloc keeps_deref : keeps.

Ltac keeps_step :=
  lazymatch goal with
  | |- keeps_objects (_ ≫= _) => apply keeps_bind; [|intros ?]
  | |- keeps_objects (match ?x with _ => _ end) => destruct x
  | |- keeps_objects (if ?x then _ else _) => destruct x
  | |- _ => solve [eauto with keeps]
  end.

Lemma keeps_get v f : keeps_objects (Store.get v f).
Proof. unfold Store.get. repeat keeps_step. Qed.

Lemma keeps_index v i : keeps_objects (Store.index v i).
Proof. unfold Store.index. repeat keeps_step. Qed.

Lemma keeps_elements v : keeps_objects (Store.elements v).
Proof. unfold Store.elements. repeat keeps_step. Qed.

Lemma keeps_own_props v : keeps_objects (Store.own_props v).
Proof. unfold Store.own_props. repeat keeps_step. Qed.

Lemma keeps_valueOf v : keeps_objects (Store.valueOf v).
Proof. unfold Store.valueOf. repeat keeps_step. Qed.

Lemma keeps_number v : keeps_objects (Store.number v).
Proof. unfold Store.number. repeat keeps_step. Qed.

Lemma keeps_identifier x : keeps_objects (Store.identifier x).
Proof. unfold Store.identifier. repeat keeps_step. Qed.

#[global] Hint Resolve keeps_get keeps_index keeps_elements keeps_own_props
  keeps_valueOf keeps_number keeps_identifier : keeps.

Lemma keeps_u ty props cs : keeps_objects (Store.u ty props cs).
Proof. unfold Store.u. repeat keeps_step. Qed.

Lemma keeps_data_object box rest : keeps_objects (Store.data_object box rest).
Proof. unfold Store.data_object. repeat keeps_step. Qed.

Lemma keeps_mapM f l :
  (∀ x, keeps_objects (f x)) → keeps_objects (Store.mapM f l).
Proof.
  intros Hf. induction l as [|x l IH]; cbn [Store.mapM]; [eauto with keeps|].
  apply keeps_bind; [apply Hf|]. intros y.
  apply keeps_bind; [apply IH|]. intros r. eauto with keeps.
Qed.

Lemma keeps_math_max l : keeps_objects (Store.math_max l).
Proof.
  unfold Store.math_max. destruct l as [|x xs]; [eauto with keeps|].
  apply keeps_bind; [eauto with keeps|]. intros z.
  apply keeps_bind; [|intros ?; eauto with keeps].
  induction xs as [|y xs IH]; [eauto with keeps|].
  apply keeps_bind; [eauto with keeps|]. intros a.
  apply keeps_bind; [apply IH|]. intros r. eauto with keeps.
Qed.

#[global] Hint Resolve keeps_u keeps_data_object keeps_math_max : keeps.

Lemma identifier_deselectBox_raises σ :
  ∃ e, fst (Store.identifier "deselectBox" σ) = Store.Raise e.
Proof. by eexists. Qed.

(** X22.  [appendNode] changes no object of the store it is given: whatever
    the tree and the store, every object that exists before the call is the
    same after it (the call ends, raising, before the assignment to
    [planeFrame.children]); only fresh objects are allocated. *)
Theorem appendNode_changes_no_object (tree : Store.val) (σ : Store.store) :
  Store.next σ ≤ Store.next (snd (Store.appendNode tree σ))
  ∧ ∀ l, l < Store.next σ →
         Store.objs (snd (Store.appendNode tree σ)) !! l = Store.objs σ !! l.
Proof.
  revert σ. change (keeps_objects (Store.appendNode tree)).
  unfold Store.appendNode.
  repeat
    lazymatch goal with
    | |- keeps_objects (Store.identifier "deselectBox" ≫= _) =>
        apply keeps_bind_raises;
        [apply keeps_identifier | apply identifier_deselectBox_raises]
    | |- keeps_objects (Store.mapM _ _) =>
        apply keeps_mapM; intros ?; apply keeps_get
    | |- _ => keeps_step
    end.
Qed.

(** ** The store view: [deleteSelectedNodes] on every scene *)

Lemma bind_raise {A B} (m : Store.M A) (k : A → Store.M B) σ e σ1 :
  m σ = (Store.Raise e, σ1) → (m ≫= k) σ = (Store.Raise e, σ1).
Proof. intros H. unfold mbind, Store.M_bind, Store.bind. by rewrite H. Qed.

Lemma index_arr σ l elems i :
  Store.objs σ !! l = Some (Store.OArr elems) →
  Store.index (Store.VRef l) i σ
  = (Store.Ok (default Store.VUndef (elems !! i)), σ).
Proof.
  intros H. unfold Store.index.
  by rewrite (bind_ok _ _ _ _ _ (deref_obj _ _ _ H)).
Qed.

Lemma elements_arr σ l elems :
  Store.objs σ !! l = Some (Store.OArr elems) →
  Store.elements (Store.VRef l) σ = (Store.Ok elems, σ).
Proof.
  intros H. unfold Store.elements.
  by rewrite (bind_ok _ _ _ _ _ (deref_obj _ _ _ H)).
Qed.

Lemma filterM_is_selected σ elems :
  Forall (fun v => ∃ b, Store.is_selected v σ = (Store.Ok b, σ)) elems →
  Store.filterM Store.is_selected elems σ
  = (Store.Ok (filter (fun v => selected_in σ v = true) elems), σ).
Proof.
  induction 1 as [|v l [b Hb] _ IH]; [done|].
  cbn [Store.filterM].
  rewrite (bind_ok _ _ _ _ _ Hb), (bind_ok _ _ _ _ _ IH).
  unfold Store.ret. f_equal. f_equal.
  assert (selected_in σ v = b) as Hv.
  { unfold selected_in. by rewrite Hb. }
  rewrite filter_cons. destruct (decide (selected_in σ v = true)) as [Ht | Hf].
  - by rewrite <- Hv, Ht.
  - rewrite <- Hv. by destruct (selected_in σ v).
Qed.

Lemma get_of_object σ l f props :
  Store.objs σ !! l = Some (Store.OObj props) →
  ∃ v, Store.get (Store.VRef l) f σ = (Store.Ok v, σ).
Proof. intros H. eexists. by apply get_obj. Qed.

(** X23.  On every well-formed scene (root, Window, Plane and the Plane's
    [children] array in the store, every GraphNode with a readable
    [data.selected]) [deleteSelectedNodes] raises [ReferenceError] on
    [height], and the store it leaves differs from the one it was given in
    two objects only: a new array holding the GraphNodes whose
    [data.selected] is truthy, in order, and the Plane, whose [children] now
    refers to that array. *)
Theorem deleteSelectedNodes_on_a_scene (σ : Store.store)
    (t tc wl wc pl pc : Store.loc) (tp wp pp : gmap string Store.val)
    (wrest prest elems : list Store.val) :
  Store.objs σ !! t = Some (Store.OObj tp) →
  tp !! "children" = Some (Store.VRef tc) →
  Store.objs σ !! tc = Some (Store.OArr (Store.VRef wl :: wrest)) →
  Store.objs σ !! wl = Some (Store.OObj wp) →
  wp !! "children" = Some (Store.VRef wc) →
  Store.objs σ !! wc = Some (Store.OArr (Store.VRef pl :: prest)) →
  Store.objs σ !! pl = Some (Store.OObj pp) →
  pp !! "children" = Some (Store.VRef pc) →
  Store.objs σ !! pc = Some (Store.OArr elems) →
  Forall (fun v => ∃ b, Store.is_selected v σ = (Store.Ok b, σ)) elems →
  Store.objs σ !! Store.next σ = None →
  Store.deleteSelectedNodes (Store.VRef t) σ
  = (Store.Raise (Store.ReferenceError "height"),
     Store.mkStore
       (<[pl := Store.OObj (<["children" := Store.VRef (Store.next σ)]> pp)]>
          (<[Store.next σ :=
               Store.OArr (filter (fun v => selected_in σ v = true) elems)]>
             (Store.objs σ)))
       (S (Store.next σ))).
Proof.
  intros Ht Htc Htarr Hw Hwc Hwarr Hp Hpc Hparr Hsel Hnext.
  unfold Store.deleteSelectedNodes.
  rewrite (bind_ok _ _ _ _ _ (get_obj _ _ _ "children" Ht)), Htc. cbn [default].
  rewrite (bind_ok _ _ _ _ _ (index_arr _ _ _ 0 Htarr)).
  cbn [lookup list_lookup default].
  rewrite (bind_ok _ _ _ _ _ (get_obj _ _ _ "children" Hw)), Hwc. cbn [default].
  rewrite (bind_ok _ _ _ _ _ (index_arr _ _ _ 0 Hwarr)).
  cbn [lookup list_lookup default].
  rewrite (bind_ok _ _ _ _ _ (get_obj _ _ _ "children" Hp)), Hpc. cbn [default].
  rewrite (bind_ok _ _ _ _ _ (elements_arr _ _ _ Hparr)).
  rewrite (bind_ok _ _ _ _ _ (filterM_is_selected _ _ Hsel)).
  erewrite bind_ok; [|reflexivity].
  assert (pl ≠ Store.next σ) as Hpl by congruence.
  erewrite bind_ok;
    [|apply set_obj; cbn [Store.objs]; by rewrite lookup_insert_ne].
  cbn [Store.objs Store.next].
  set (σ2 := Store.mkStore _ _).
  assert (∃ props, Store.objs σ2 !! t = Some (Store.OObj props)) as [tp2 Ht2].
  { unfold σ2. cbn [Store.objs]. destruct (decide (t = pl)) as [-> | Hne].
    - rewrite lookup_insert_eq. by eexists.
    - rewrite !lookup_insert_ne by congruence. by eexists. }
  destruct (get_of_object σ2 t "canvas" tp2 Ht2) as [c Hc].
  destruct (get_of_object σ2 t "width" tp2 Ht2) as [w Hwd].
  rewrite (bind_ok _ _ _ _ _ Hc), (bind_ok _ _ _ _ _ Hwd).
  by erewrite bind_raise.
Qed.

Lemma deleteSelectedNodes_on_a_scene_witness :
  Store.deleteSelectedNodes (Store.VRef 0) two_node_scene
  = (Store.Raise (Store.ReferenceError "height"),
     Store.mkStore
       (<[4 := Store.OObj
                 (<["children" := Store.VRef (Store.next two_node_scene)]>
                    (list_to_map
                       [ ("type", Store.VStr "plane");
                         ("worldMatrix", Store.VMat (worldMatrix plane_30px));
                         ("children", Store.VRef 5) ]))]>
          (<[Store.next two_node_scene :=
               Store.OArr (filter (fun v => selected_in two_node_scene v = true)
                             [Store.VRef 6; Store.VRef 8])]>
             (Store.objs two_node_scene)))
       (S (Store.next two_node_scene))).
Proof.
  apply (deleteSelectedNodes_on_a_scene two_node_scene 0 1 2 3 4 5
           _ _ _ [] [] _ eq_refl eq_refl eq_refl eq_refl eq_refl eq_refl
           eq_refl eq_refl eq_refl).
  - repeat constructor; eexists; reflexivity.
  - reflexivity.
Defined.

(** ** An anchor is linked or floating, never both *)

Lemma exclusive_translatedFrame c d r :
  exclusive (frames.translatedFrame c d r) ↔ exclusive c.
Proof. unfold exclusive. by rewrite data_translatedFrame. Qed.

Lemma updateGraphNode_exclusive node :
  Forall exclusive (children node) →
  match updateGraphNode node with
  | None => children node = []
  | Some node' => Forall exclusive (children node')
  end.
Proof.
  intros Hall. pose proof (updateGraphNode_cases node) as Hcases.
  destruct (updateGraphNode node) as [node'|]; [|done].
  destruct Hcases as [-> | [(i & c & _ & _ & ->) | Hadd]]; [done| |].
  - unfold removeEdgeNode. rewrite spread_id. cbn [children with_children].
    apply Forall_app. split.
    + apply Forall_imap. intros j x Hx.
      apply lookup_take_Some in Hx as [Hx _].
      assert (exclusive x) by (by eapply Forall_lookup_1 in Hall).
      destruct (is_out x); [by apply exclusive_translatedFrame | done].
    + apply Forall_imap. intros j x Hx. apply exclusive_translatedFrame.
      rewrite lookup_drop in Hx. by eapply Forall_lookup_1 in Hall.
  - pose proof (addEdgeNode_shape node) as Hshape. rewrite Hadd in Hshape.
    destruct Hshape as (c0 & cs & lastc & newEdge & _ & -> & _ & _ & _ & Hnew).
    cbn [children with_children]. apply Forall_app. split.
    + apply Forall_imap. intros j x Hx.
      assert (exclusive x) by (by eapply Forall_lookup_1 in Hall).
      destruct (is_out x); [by apply exclusive_translatedFrame | done].
    + constructor; [by left | constructor].
Qed.

(** X24.  An anchor is linked or floating, never both: when no child of a
    GraphNode has both [linkedTo] and [to], the same holds after the
    mutations of any edge-drag sample that carries either the hovered node
    or the pointer position, a move or a release.  (The only raised
    exception is the release on a GraphNode without children.) *)
Theorem edge_drag_keeps_anchors_exclusive
    (node : Node) (k : option Z) (s : hoverSample) :
  one_of s →
  Forall exclusive (children node) →
  match run (emitted k (edge_drag s)) node with
  | None => children node = []
  | Some node' => Forall exclusive (children node')
  end.
Proof.
  intros Hs Hall. unfold edge_drag. case_bool_decide as Hty.
  - unfold emitted, run. cbn [self parent map app foldl mbind option_bind].
    destruct (lift_total
                (fun e => updateEdgeNode e (hoveredNode s) (hposition s)) k node)
      as (node1 & -> & Hshape).
    destruct Hshape as [-> | (i & c & _ & ->)]; [done|].
    cbn [children with_children]. apply Forall_insert; [done|].
    unfold exclusive, updateEdgeNode. cbn [data with_data].
    cbn [linkedTo to]. destruct Hs as [-> | ->]; [by left | by right].
  - unfold emitted, run. cbn [self parent map app foldl mbind option_bind].
    destruct (lift_total (finalize (hoveredNode s) (hposition s)) k node)
      as (node1 & -> & Hshape).
    cbn [mbind option_bind].
    assert (Forall exclusive (children node1)) as Hall1.
    { destruct Hshape as [-> | (i & c & _ & ->)]; [done|].
      cbn [children with_children]. apply Forall_insert; [done|]. by right. }
    pose proof (updateGraphNode_exclusive node1 Hall1) as Hup.
    destruct (updateGraphNode node1) as [node2|]; [done|].
    destruct Hshape as [-> | (i & c & Hc & ->)]; [done|].
    cbn [children with_children] in Hup.
    apply (f_equal length) in Hup. rewrite length_insert in Hup.
    apply lookup_lt_Some in Hc. cbn [length] in Hup. lia.
Qed.

Lemma edge_drag_keeps_anchors_exclusive_witness :
  match run (emitted (Some 0%Z) (edge_drag release_on_other)) linked_node with
  | None => children linked_node = []
  | Some node' => Forall exclusive (children node')
  end.
Proof.
  apply (edge_drag_keeps_anchors_exclusive linked_node (Some 0%Z)
           release_on_other).
  - right. reflexivity.
  - repeat constructor; by left.
Defined.
